(** * Homomorphic Battleship: the encrypted board of [game.py]

    A shallow embedding of [src/game.py].  Each [Player] keeps a plaintext
    grid, a grid of Paillier ciphertexts and the opponent-visible guess
    board.  The methods of the Python class are embedded as computations
    of a small state-and-exception monad over the player object and the
    two sources of randomness the program draws from (Python's [random]
    module and the fresh randomness of each encryption).

    Conventions of the embedding:
    - Python lists of lists are [list (list _)], read with stdpp's lookup
      and written with its insert; an index outside the list raises
      [IndexError] as in Python.  Indices are natural numbers: the program
      only ever indexes with values drawn from [randint(0, GRID_SIZE - 1)],
      parsed into that range or produced by [range].
    - [print] calls, which do not touch the state, are left out.
    - The [while not placed] loop of [place_ships] follows a bounded number
      of attempts ([fuel]); a run that has used them all is [Diverge], the
      loop being still at work.
    - [GRID_SIZE] and [SHIP_SIZES] are the fields of a [Config]; the
      program's own values are [game_config].

    The Paillier library [phe] is not part of the repository: it is taken
    as a parameter (class [Paillier]) together with the algebraic laws the
    program relies on (class [PaillierLaws]); module [ToyPaillier]
    instantiates both with the textbook scheme over a small modulus, on
    which the concrete boards of module [Demo] are run. *)

From Stdlib Require Import ZArith Zpow_facts Lia Ascii String DecimalString DecimalNat DecimalFacts.
From stdpp Require Import base tactics option list strings gmap.

Local Open Scope nat_scope.

(** ** The additively homomorphic primitive (library [phe]) *)

(** The operations of [phe.paillier] the game calls: [public_key.encrypt],
    [private_key.decrypt] and [+] on encrypted numbers.  [Rand] is the
    fresh randomness one encryption consumes, [keypair] relates the two
    halves that [generate_paillier_keypair] returns together, [max_int] is
    the largest magnitude the key can encode, and [decrypt] answers [None]
    where the library raises. *)
Class Paillier := {
  PublicKey : Type;
  PrivateKey : Type;
  Ciphertext : Type;
  Rand : Type;
  keypair : PublicKey → PrivateKey → Prop;
  max_int : PublicKey → Z;
  encrypt : PublicKey → Rand → Z → Ciphertext;
  add : Ciphertext → Ciphertext → Ciphertext;
  decrypt : PrivateKey → Ciphertext → option Z
}.

(** Enc(A) + Enc(B) = Enc(A + B), within the plaintext range of the key. *)
Class PaillierLaws (P : Paillier) : Prop := {
  decrypt_encrypt pk sk r m :
    keypair pk sk →
    (- max_int pk ≤ m ≤ max_int pk)%Z →
    decrypt sk (encrypt pk r m) = Some m;
  decrypt_add pk sk c1 c2 a b :
    keypair pk sk →
    decrypt sk c1 = Some a →
    decrypt sk c2 = Some b →
    (- max_int pk ≤ a + b ≤ max_int pk)%Z →
    decrypt sk (add c1 c2) = Some (a + b)%Z
}.

(** ** A concrete instance: textbook Paillier over a small modulus

    [n = 17 * 19], generator [n + 1].  Plaintexts are encoded as in [phe]:
    [m mod n], with the top third of the residues read back as negative
    numbers and the middle third reported as overflow.  A ciphertext
    carries the modulus it was made under, like [phe]'s encrypted numbers. *)
Module ToyPaillier.

Local Open Scope Z_scope.

Record public := mkPublic { pub_n : Z }.
Record private := mkPrivate { priv_n : Z; priv_lambda : Z; priv_mu : Z }.
Record ciphertext := mkCiphertext { ct_n : Z; ct_value : Z }.

Definition toy_public : public := mkPublic 323.
Definition toy_private : private := mkPrivate 323 144 83.

Definition toy_max_int (pk : public) : Z := pub_n pk / 3 - 1.

(** The function L of the scheme, on residues congruent to 1 modulo [n]. *)
Definition L (n x : Z) : Z := (x - 1) / n.

(** [b ^ e mod m] by repeated squaring. *)
Fixpoint powmod_pos (b : Z) (e : positive) (m : Z) : Z :=
  match e with
  | xH => b mod m
  | xO e' => let h := powmod_pos b e' m in (h * h) mod m
  | xI e' => let h := powmod_pos b e' m in ((h * h) mod m * b) mod m
  end.

Definition powmod (b e m : Z) : Z :=
  match e with
  | Z0 => 1 mod m
  | Zpos p => powmod_pos b p m
  | Zneg _ => 0
  end.

(** [r ^ n mod n^2] for a unit [r]; randomness that is not a unit modulo
    [n] falls back to the trivial obfuscator. *)
Definition obfuscator (n r : Z) : Z :=
  if Z.gcd (r mod n) n =? 1 then powmod (r mod n) n (n * n) else 1.

Definition toy_encrypt (pk : public) (r : Z) (m : Z) : ciphertext :=
  let n := pub_n pk in
  mkCiphertext n (((1 + n * (m mod n)) * obfuscator n r) mod (n * n)).

Definition toy_add (c1 c2 : ciphertext) : ciphertext :=
  let n := ct_n c1 in
  mkCiphertext n ((ct_value c1 * ct_value c2) mod (n * n)).

Definition decode (n x : Z) : option Z :=
  if x <=? n / 3 - 1 then Some x
  else if n - (n / 3 - 1) <=? x then Some (x - n)
  else None.

(** [c ^ lambda mod n^2], and the encoded plaintext read off it. *)
Definition residue (n lam c : Z) : Z := powmod c lam (n * n).
Definition ell (n lam mu c : Z) : Z := (L n (residue n lam c) * mu) mod n.

(** Decryption refuses a ciphertext made under another modulus and one
    whose [lambda]-th power is not congruent to 1 modulo [n]. *)
Definition toy_decrypt (sk : private) (c : ciphertext) : option Z :=
  let n := priv_n sk in
  if (ct_n c =? n) && (residue n (priv_lambda sk) (ct_value c) mod n =? 1)
  then decode n (ell n (priv_lambda sk) (priv_mu sk) (ct_value c))
  else None.

(** Every unit [r] below 323 gives an obfuscator whose [lambda]-th power
    is 1: checked residue by residue. *)
Definition unit_checked (r : Z) : bool :=
  negb (Z.gcd r 323 =? 1) ||
  (powmod (powmod r 323 (323 * 323)) 144 (323 * 323) =? 1).

Definition units_checked : bool :=
  forallb (λ k, unit_checked (Z.of_nat k)) (seq 0 (Z.to_nat 323)).

Definition toy_keypair (pk : public) (sk : private) : Prop :=
  pk = toy_public ∧ sk = toy_private.

#[export] Instance toy : Paillier := {|
  PublicKey := public;
  PrivateKey := private;
  Ciphertext := ciphertext;
  Rand := Z;
  keypair := toy_keypair;
  max_int := toy_max_int;
  encrypt := toy_encrypt;
  add := toy_add;
  decrypt := toy_decrypt
|}.

End ToyPaillier.

(** The three printed outcomes of the "Process Attack" step of [main]. *)
Inductive outcome := AlreadyAttacked | Hit | Miss.

Global Instance outcome_eq_dec : EqDecision outcome.
Proof. solve_decision. Defined.

(** The Python exceptions the embedded code can raise. *)
Inductive exn := IndexError | TypeError | ValueError | OverflowError.

(** The module-level configuration of [game.py]. *)
Class Config := {
  GRID_SIZE : nat;
  SHIP_SIZES : list nat
}.

(** [GRID_SIZE = 10] and [SHIP_SIZES = [5, 4, 3, 2, 2]]. *)
Definition game_config : Config :=
  {| GRID_SIZE := 10; SHIP_SIZES := [5; 4; 3; 2; 2] |}.

Section Game.
Context {P : Paillier} {cfg : Config}.

(** ** The player object and the ambient state *)

Record Player := mkPlayer {
  name : string;
  public_key : PublicKey;
  private_key : PrivateKey;
  plain_grid : list (list Z);
  encrypted_grid : list (list (option Ciphertext));
  guess_board : list (list ascii)
}.

(** [self] is the player the running method belongs to; [random] is the
    stream of raw draws still to come from Python's [random] module and
    [entropy] the stream of randomness still to be used by encryptions. *)
Record World := mkWorld {
  self : Player;
  random : nat → nat;
  entropy : nat → Rand
}.

(** A computation ends with a value and a new state, raises, or is still
    inside a [while] loop when its fuel is gone. *)
Inductive result (A : Type) :=
| Ok (a : A) (w : World)
| Raise (e : exn)
| Diverge.
Global Arguments Ok {A} a w.
Global Arguments Raise {A} e.
Global Arguments Diverge {A}.

Definition M (A : Type) : Type := World → result A.

Global Instance M_ret : MRet M := λ A a w, Ok a w.
Global Instance M_bind : MBind M := λ A B f m w,
  match m w with
  | Ok a w' => f a w'
  | Raise e => Raise e
  | Diverge => Diverge
  end.

Definition raise {A} (e : exn) : M A := λ _, Raise e.
Definition diverge {A} : M A := λ _, Diverge.
Definition get_self : M Player := λ w, Ok (self w) w.
Definition put_self (p : Player) : M unit :=
  λ w, Ok tt (mkWorld p (random w) (entropy w)).

(** One raw draw from the [random] module. *)
Definition draw : M nat :=
  λ w, Ok (random w 0) (mkWorld (self w) (λ n, random w (S n)) (entropy w)).

(** [random.randint(lo, hi)]: uniform in [lo..hi], [ValueError] on an
    empty range. *)
Definition randint (lo hi : Z) : M nat :=
  if (hi <? lo)%Z then raise ValueError
  else raw ← draw; mret (Z.to_nat (lo + Z.of_nat raw `mod` (hi - lo + 1))).

(** [random.choice(l)]. *)
Definition choice {A} (l : list A) : M A :=
  raw ← draw;
  match l !! (raw `mod` length l) with
  | Some x => mret x
  | None => raise IndexError
  end.

(** [self.public_key.encrypt(m)]: consumes fresh randomness. *)
Definition encrypt_fresh (m : Z) : M Ciphertext :=
  λ w, Ok (encrypt (public_key (self w)) (entropy w 0) m)
          (mkWorld (self w) (random w) (λ n, entropy w (S n))).

(** [self.private_key.decrypt(c)]. *)
Definition decrypt_own (c : Ciphertext) : M Z :=
  p ← get_self;
  match decrypt (private_key p) c with
  | Some v => mret v
  | None => raise OverflowError
  end.

(** [a + b] on grid cells: a cell still holding the [None] placeholder
    is not an encrypted number. *)
Definition ct_add (a b : option Ciphertext) : M Ciphertext :=
  match a, b with
  | Some x, Some y => mret (add x y)
  | _, _ => raise TypeError
  end.

(** ** Lists of lists as Python grids *)

(** [l[i]] for a non-negative index. *)
Definition index {A} (l : list A) (i : nat) : M A :=
  match l !! i with
  | Some x => mret x
  | None => raise IndexError
  end.

(** [g[row][col]]. *)
Definition cell {A} (g : list (list A)) (row col : nat) : M A :=
  r ← index g row; index r col.

(** [g[row][col] = v], as the grid after the in-place update. *)
Definition set_cell {A} (g : list (list A)) (row col : nat) (v : A)
  : M (list (list A)) :=
  r ← index g row;
  if decide (col < length r) then mret (<[row := <[col := v]> r]> g)
  else raise IndexError.

Definition with_plain_grid (p : Player) g : Player :=
  mkPlayer (name p) (public_key p) (private_key p) g
           (encrypted_grid p) (guess_board p).
Definition with_encrypted_grid (p : Player) g : Player :=
  mkPlayer (name p) (public_key p) (private_key p) (plain_grid p)
           g (guess_board p).
Definition with_guess_board (p : Player) g : Player :=
  mkPlayer (name p) (public_key p) (private_key p) (plain_grid p)
           (encrypted_grid p) g.

(** [range(a, b)] and [range(n)]. *)
Definition range2 (a b : nat) : list nat := seq a (b - a).
Definition range (n : nat) : list nat := range2 0 n.

(** [for x in l: body]. *)
Fixpoint for_ {A} (l : list A) (body : A → M unit) : M unit :=
  match l with
  | [] => mret tt
  | x :: l' => _ ← body x; for_ l' body
  end.

(** [for x in l: acc = body(acc, x)] for a loop that rebinds one local. *)
Fixpoint for_acc {A S} (l : list A) (body : S → A → M S) (s : S) : M S :=
  match l with
  | [] => mret s
  | x :: l' => s' ← body s x; for_acc l' body s'
  end.

(** [for x in l: body], where [body] may [return] from the enclosing
    function ([Some v]) or fall through to the next iteration. *)
Fixpoint for_return {A R} (l : list A) (body : A → M (option R))
  : M (option R) :=
  match l with
  | [] => mret None
  | x :: l' =>
      r ← body x;
      match r with
      | Some v => mret (Some v)
      | None => for_return l' body
      end
  end.

(** ** Methods of [Player] *)

Definition is_valid_placement (row col size : nat) (orientation : ascii)
  : M bool :=
  if Ascii.eqb orientation "H" then
    if GRID_SIZE <? col + size then mret false
    else
      r ← for_return (range2 col (col + size)) (λ c,
             p ← get_self;
             v ← cell (plain_grid p) row c;
             mret (if (v =? 1)%Z then Some false else None));
      mret (default true r)
  else
    if GRID_SIZE <? row + size then mret false
    else
      r ← for_return (range2 row (row + size)) (λ r,
             p ← get_self;
             v ← cell (plain_grid p) r col;
             mret (if (v =? 1)%Z then Some false else None));
      mret (default true r).

Definition set_ship (row col size : nat) (orientation : ascii) : M unit :=
  if Ascii.eqb orientation "H" then
    for_ (range2 col (col + size)) (λ c,
      p ← get_self;
      g ← set_cell (plain_grid p) row c 1%Z;
      put_self (with_plain_grid p g))
  else
    for_ (range2 row (row + size)) (λ r,
      p ← get_self;
      g ← set_cell (plain_grid p) r col 1%Z;
      put_self (with_plain_grid p g)).

(** The [while not placed] loop for one ship; [fuel] bounds the number
    of random attempts the model follows. *)
Fixpoint place_ship (fuel : nat) (size : nat) : M unit :=
  match fuel with
  | 0 => diverge
  | S fuel' =>
      orientation ← choice ["H"; "V"]%char;
      row ← randint 0 (Z.of_nat GRID_SIZE - 1);
      col ← randint 0 (Z.of_nat GRID_SIZE - 1);
      ok ← is_valid_placement row col size orientation;
      if ok : bool then set_ship row col size orientation
      else place_ship fuel' size
  end.

Definition place_ships (fuel : nat) : M unit :=
  for_ SHIP_SIZES (place_ship fuel).

Definition encrypt_initial_board : M unit :=
  for_ (range GRID_SIZE) (λ r,
    for_ (range GRID_SIZE) (λ c,
      p ← get_self;
      val ← cell (plain_grid p) r c;
      ct ← encrypt_fresh val;
      p ← get_self;
      g ← set_cell (encrypted_grid p) r c (Some ct);
      put_self (with_encrypted_grid p g))).

Definition receive_attack (row col : nat) : M bool :=
  p ← get_self;
  v ← cell (plain_grid p) row col;
  let is_hit := (v =? 1)%Z in
  g ← set_cell (guess_board p) row col (if is_hit then "X" else "O")%char;
  _ ← put_self (with_guess_board p g);
  if is_hit then
    minus_one ← encrypt_fresh (-1);
    p ← get_self;
    old ← cell (encrypted_grid p) row col;
    new ← ct_add old (Some minus_one);
    p ← get_self;
    g ← set_cell (encrypted_grid p) row col (Some new);
    _ ← put_self (with_encrypted_grid p g);
    p ← get_self;
    g ← set_cell (plain_grid p) row col 0%Z;
    _ ← put_self (with_plain_grid p g);
    mret true
  else mret false.

Definition check_health_homomorphically : M Z :=
  encrypted_total ← encrypt_fresh 0;
  encrypted_total ←
    for_acc (range GRID_SIZE) (λ encrypted_total r,
      for_acc (range GRID_SIZE) (λ encrypted_total c,
        p ← get_self;
        ct ← cell (encrypted_grid p) r c;
        ct_add (Some encrypted_total) ct) encrypted_total) encrypted_total;
  decrypt_own encrypted_total.

(** The fields [__init__] sets before it places the ships: the key pair
    that [generate_paillier_keypair] returned, a grid of 0s, a grid of
    [None] placeholders and a grid of dots. *)
Definition blank (nm : string) (pk : PublicKey) (sk : PrivateKey) : Player :=
  mkPlayer nm pk sk
    (replicate GRID_SIZE (replicate GRID_SIZE 0%Z))
    (replicate GRID_SIZE (replicate GRID_SIZE None))
    (replicate GRID_SIZE (replicate GRID_SIZE "."%char)).

(** [Player.__init__]. *)
Definition Player_init (nm : string) (pk : PublicKey) (sk : PrivateKey)
    (fuel : nat) : M unit :=
  _ ← put_self (blank nm pk sk);
  _ ← place_ships fuel;
  encrypt_initial_board.

(** The "Process Attack" step of [main], with the defender as [self]. *)
Definition process_attack (row col : nat) : M outcome :=
  p ← get_self;
  g ← cell (guess_board p) row col;
  if negb (Ascii.eqb g ".") then mret AlreadyAttacked
  else
    is_hit ← receive_attack row col;
    mret (if is_hit : bool then Hit else Miss).

(** A run of "Process Attack" steps against the same defender. *)
Fixpoint run_attacks (attacks : list (nat * nat)) : M (list outcome) :=
  match attacks with
  | [] => mret []
  | (row, col) :: rest =>
      o ← process_attack row col;
      os ← run_attacks rest;
      mret (o :: os)
  end.

(** One turn of [main] seen from the defender: the attack is processed,
    then the referee sums the encrypted grid and the game is over when
    the decrypted sum is 0. *)
Definition turn (row col : nat) : M (outcome * Z * bool) :=
  o ← process_attack row col;
  remaining_life ← check_health_homomorphically;
  mret (o, remaining_life, (remaining_life =? 0)%Z).

Fixpoint run_turns (attacks : list (nat * nat))
  : M (list (outcome * Z * bool)) :=
  match attacks with
  | [] => mret []
  | (row, col) :: rest =>
      t ← turn row col;
      ts ← run_turns rest;
      mret (t :: ts)
  end.

(** ** Pure views of the grids *)

Definition at2 {A} (g : list (list A)) (row col : nat) : option A :=
  r ← g !! row; r !! col.

Definition upd2 {A} (g : list (list A)) (row col : nat) (v : A)
  : list (list A) :=
  alter (λ r, <[col := v]> r) row g.

Definition grid_shape {A} (g : list (list A)) : Prop :=
  length g = GRID_SIZE ∧ Forall (λ r, length r = GRID_SIZE) g.

(** Number of cells equal to 1. *)
Definition count_ones (g : list (list Z)) : nat :=
  length (filter (λ v, v = 1%Z) (concat g)).

Definition bits (g : list (list Z)) : Prop :=
  Forall (Forall (λ v, v = 0%Z ∨ v = 1%Z)) g.

(** Invariant I1 at one cell and on the whole board. *)
Definition cell_consistent (p : Player) (row col : nat) : Prop :=
  ∃ v ct, at2 (plain_grid p) row col = Some v ∧
          at2 (encrypted_grid p) row col = Some (Some ct) ∧
          decrypt (private_key p) ct = Some v.

Definition I1 (p : Player) : Prop :=
  ∀ row col, row < GRID_SIZE → col < GRID_SIZE → cell_consistent p row col.

(** What every board satisfies once [__init__] has returned. *)
Record consistent (p : Player) : Prop := {
  cons_keys : keypair (public_key p) (private_key p);
  cons_capacity : (Z.of_nat (GRID_SIZE * GRID_SIZE) ≤ max_int (public_key p))%Z;
  cons_plain : grid_shape (plain_grid p);
  cons_encrypted : grid_shape (encrypted_grid p);
  cons_guess : grid_shape (guess_board p);
  cons_bits : bits (plain_grid p);
  cons_I1 : I1 p
}.

Definition ones (l : list Z) : nat := length (filter (λ v, v = 1%Z) l).

Definition bit_value (v : Z) : nat := if decide (v = 1%Z) then 1 else 0.

(** The state a hit leaves behind: all three grids change at the cell. *)
Definition after_hit (w : World) (row col : nat) (ct : Ciphertext) : World :=
  let p := self w in
  mkWorld
    (mkPlayer (name p) (public_key p) (private_key p)
       (upd2 (plain_grid p) row col 0%Z)
       (upd2 (encrypted_grid p) row col
          (Some (add ct (encrypt (public_key p) (entropy w 0) (-1)))))
       (upd2 (guess_board p) row col "X"%char))
    (random w) (λ n, entropy w (S n)).

(** The state a miss leaves behind: only the guess board changes. *)
Definition after_miss (w : World) (row col : nat) : World :=
  mkWorld (with_guess_board (self w) (upd2 (guess_board (self w)) row col "O"%char))
          (random w) (entropy w).

(** The state a health check leaves behind: one encryption's worth of
    randomness is used up. *)
Definition after_health (w : World) : World :=
  mkWorld (self w) (random w) (λ n, entropy w (S n)).

(** The run of cells a ship anchored at ([row], [col]) covers. *)
Definition ship_cells (row col size : nat) (orientation : ascii)
  : list (nat * nat) :=
  if Ascii.eqb orientation "H" then (λ c, (row, c)) <$> seq col size
  else (λ r, (r, col)) <$> seq row size.

(** What scanning a run of cells for an occupied one finds: [None] when a
    cell lies outside the grid, otherwise whether some cell holds a 1. *)
Fixpoint blocked (g : list (list Z)) (cells : list (nat * nat)) : option bool :=
  match cells with
  | [] => Some false
  | (r, c) :: rest =>
      match at2 g r c with
      | None => None
      | Some v => if (v =? 1)%Z then Some true else blocked g rest
      end
  end.

(** The grid with every cell of a run set to 1. *)
Definition fill (g : list (list Z)) (cells : list (nat * nat))
  : list (list Z) :=
  foldl (λ g rc, upd2 g rc.1 rc.2 1%Z) g cells.

(** What one placement attempt can draw: an anchor on the board and an
    orientation. *)
Definition attempts : list (nat * nat * ascii) :=
  list_prod (list_prod (seq 0 GRID_SIZE) (seq 0 GRID_SIZE)) ["H"; "V"]%char.

(** Whether [is_valid_placement] answers [True] on grid [g]. *)
Definition accepts (g : list (list Z)) (row col size : nat) (o : ascii) : bool :=
  if GRID_SIZE <? (if Ascii.eqb o "H" then col else row) + size then false
  else match blocked g (ship_cells row col size o) with
       | Some false => true
       | _ => false
       end.

(** Whether the ships of [sizes] can fit on grid [g]: whether some
    sequence of draws gives each ship in turn a run that
    [is_valid_placement] accepts, the runs before it written by
    [set_ship]. *)
Fixpoint can_place (sizes : list nat) (g : list (list Z)) : bool :=
  match sizes with
  | [] => true
  | size :: rest =>
      existsb (λ a, accepts g a.1.1 a.1.2 size a.2 &&
                    can_place rest (fill g (ship_cells a.1.1 a.1.2 size a.2)))
              attempts
  end.

(** The draws that make one attempt pick the anchor and orientation
    [a], followed by the draws [rnd]. *)
Definition drawing (a : nat * nat * ascii) (rnd : nat → nat) (n : nat) : nat :=
  match n with
  | 0 => if Ascii.eqb a.2 "H" then 0 else 1
  | 1 => a.1.1
  | 2 => a.1.2
  | S (S (S n')) => rnd n'
  end.

(** Number of [Hit] outcomes in a run of attacks. *)
Definition hits (os : list outcome) : nat := length (filter (λ o, o = Hit) os).

(** The states a board goes through: [__init__] with a key pair whose
    plaintext range holds the largest possible health sum, followed by
    any number of attacks (through the guard of [main] or by calling
    [receive_attack] directly) and health checks. *)
Inductive reachable : World → Prop :=
| reach_init nm pk sk fuel w0 w :
    keypair pk sk →
    (Z.of_nat (GRID_SIZE * GRID_SIZE) ≤ max_int pk)%Z →
    Player_init nm pk sk fuel w0 = Ok tt w →
    reachable w
| reach_process row col o w w' :
    reachable w → process_attack row col w = Ok o w' → reachable w'
| reach_receive row col b w w' :
    reachable w → receive_attack row col w = Ok b w' → reachable w'
| reach_health v w w' :
    reachable w → check_health_homomorphically w = Ok v w' → reachable w'.

(** The state after the three draws of one placement attempt. *)
Definition after_draws (w : World) : World :=
  mkWorld (self w) (λ n, random w (S (S (S n)))) (entropy w).

(** The orientation, row and column one placement attempt draws. *)
Definition drawn_orientation (w : World) : ascii :=
  if random w 0 `mod` 2 =? 0 then "H"%char else "V"%char.
Definition drawn_row (w : World) : nat := random w 1 `mod` GRID_SIZE.
Definition drawn_col (w : World) : nat := random w 2 `mod` GRID_SIZE.

(** The part of the player that placement leaves alone. *)
Definition placing (w w' : World) : Prop :=
  ∃ g, self w' = with_plain_grid (self w) g ∧
       grid_shape g ∧ bits g ∧ entropy w' = entropy w.

(** What [encrypt_initial_board] relies on, and what it leaves alone. *)
Record well_formed (p : Player) : Prop := {
  wf_keys : keypair (public_key p) (private_key p);
  wf_capacity : (Z.of_nat (GRID_SIZE * GRID_SIZE) ≤ max_int (public_key p))%Z;
  wf_plain : grid_shape (plain_grid p);
  wf_encrypted : grid_shape (encrypted_grid p);
  wf_guess : grid_shape (guess_board p);
  wf_bits : bits (plain_grid p)
}.

Definition encrypting (w w' : World) : Prop :=
  ∃ g, self w' = with_encrypted_grid (self w) g ∧
       grid_shape g ∧ random w' = random w.

(** Invariant I1 on the cells the encryption loops have already passed
    when they stand at row [r], column [k]. *)
Definition encrypted_upto (p : Player) (r k : nat) : Prop :=
  ∀ r' c', r' < GRID_SIZE → c' < GRID_SIZE →
           r' < r ∨ (r' = r ∧ c' < k) → cell_consistent p r' c'.

(** The same state with another private key in the player object. *)
Definition with_private_key (w : World) (sk : PrivateKey) : World :=
  let p := self w in
  mkWorld (mkPlayer (name p) (public_key p) sk (plain_grid p)
                    (encrypted_grid p) (guess_board p))
          (random w) (entropy w).

(** The distinct occupied cells of grid [g] that a list of attacks
    touches. *)
Definition struck (g : list (list Z)) (attacks : list (nat * nat))
  : gset (nat * nat) :=
  list_to_set (filter (λ rc, at2 g rc.1 rc.2 = Some 1%Z) attacks).

(** A cell that still holds a ship part has not been marked. *)
Definition marks_sound (p : Player) : Prop :=
  ∀ row col, at2 (plain_grid p) row col = Some 1%Z →
             at2 (guess_board p) row col = Some "."%char.

(** The guess board shows a hit or a miss at the cell. *)
Definition marked (p : Player) (row col : nat) : Prop :=
  ∃ m, at2 (guess_board p) row col = Some m ∧ m ≠ "."%char.

Definition on_board (rc : nat * nat) : Prop :=
  rc.1 < GRID_SIZE ∧ rc.2 < GRID_SIZE.

End Game.

(** * Input, display and the match

    The functions of [game.py] around the board: [get_coordinates],
    [Player.print_board_view] and the turn loop of [main].  Strings are
    Rocq strings, of characters with codes below 256.  The functions on
    characters below are those of Python on 7-bit ASCII text, [isascii];
    beyond it Python's [upper], [strip], [isalpha] and [isdigit] follow
    Unicode, which these do not, so every property of the input is stated
    for lines that satisfy [isascii], and every property of a row label
    for boards whose labels [chr(65 + r)] have codes below 256. *)
Section Match.
Context {P : Paillier} {cfg : Config}.

(** ** Python's string methods, on ASCII text *)

(** [s.isascii()]: every character has a code below 128. *)
Fixpoint isascii (s : string) : bool :=
  match s with
  | EmptyString => true
  | String c s' => (nat_of_ascii c <? 128) && isascii s'
  end.

(** [c.isspace()]: tab to carriage return, the four separators, space. *)
Definition is_space (c : ascii) : bool :=
  let n := nat_of_ascii c in
  ((9 <=? n) && (n <=? 13)) || ((28 <=? n) && (n <=? 32)).

Definition is_alpha (c : ascii) : bool :=
  let n := nat_of_ascii c in
  ((65 <=? n) && (n <=? 90)) || ((97 <=? n) && (n <=? 122)).

Definition is_digit (c : ascii) : bool :=
  let n := nat_of_ascii c in (48 <=? n) && (n <=? 57).

Definition upper_char (c : ascii) : ascii :=
  let n := nat_of_ascii c in
  if (97 <=? n) && (n <=? 122) then ascii_of_nat (n - 32) else c.

(** [s.upper()]. *)
Fixpoint upper (s : string) : string :=
  match s with
  | EmptyString => EmptyString
  | String c s' => String (upper_char c) (upper s')
  end.

Fixpoint lstrip (s : string) : string :=
  match s with
  | EmptyString => EmptyString
  | String c s' => if is_space c then lstrip s' else s
  end.

Fixpoint rstrip (s : string) : string :=
  match s with
  | EmptyString => EmptyString
  | String c s' =>
      match rstrip s' with
      | EmptyString => if is_space c then EmptyString else String c EmptyString
      | t => String c t
      end
  end.

(** [s.strip()]. *)
Definition strip (s : string) : string := rstrip (lstrip s).

(** Text made of white space only. *)
Fixpoint all_space (s : string) : bool :=
  match s with
  | EmptyString => true
  | String c s' => is_space c && all_space s'
  end.

Fixpoint all_digits (s : string) : bool :=
  match s with
  | EmptyString => true
  | String c s' => is_digit c && all_digits s'
  end.

(** [s.isdigit()]: false on the empty string. *)
Definition isdigit (s : string) : bool :=
  match s with
  | EmptyString => false
  | _ => all_digits s
  end.

(** The most digits CPython converts from a string,
    [sys.int_info.default_max_str_digits]. *)
Definition max_str_digits : Z := 4300.

(** [int(s)] on a string of ASCII digits, the only strings
    [get_coordinates] hands to it; [None] is [ValueError], which CPython
    raises when the string has more than [max_str_digits] digits, leading
    zeros counted. *)
Definition int (s : string) : option nat :=
  if (max_str_digits <? Z.of_nat (String.length s))%Z then None
  else Nat.of_uint <$> NilEmpty.uint_of_string s.

(** [str(n)]. *)
Definition str (n : nat) : string := NilEmpty.string_of_uint (Nat.to_uint n).

(** [chr(n)], for [n] below 256: beyond, Python's character has no
    counterpart among the characters of Rocq strings. *)
Definition chr (n : nat) : ascii := ascii_of_nat n.

(** [sep.join(l)]. *)
Fixpoint join (sep : string) (l : list string) : string :=
  match l with
  | [] => EmptyString
  | [x] => x
  | x :: l' => String.append x (String.append sep (join sep l'))
  end.

(** ** [get_coordinates] *)

(** One pass through the body of the [while True] loop on one line of
    input: [Some] is the [return], [None] any of the ways to the next
    iteration (a [continue], the [ValueError] handler, the end of the
    body after "out of bounds"). *)
Definition parse_coordinates (line : string) : option (nat * nat) :=
  let user_input := strip (upper line) in
  if String.length user_input <? 2 then None
  else
    match user_input with
    | EmptyString => None
    | String row_char col_str =>
        if negb (is_alpha row_char) || negb (isdigit col_str) then None
        else
          match int col_str with
          | None => None
          | Some number =>
              let row := (Z.of_nat (nat_of_ascii row_char) - 65)%Z in
              let col := (Z.of_nat number - 1)%Z in
              if (0 <=? row)%Z && (row <? Z.of_nat GRID_SIZE)%Z &&
                 (0 <=? col)%Z && (col <? Z.of_nat GRID_SIZE)%Z
              then Some (Z.to_nat row, Z.to_nat col)
              else None
          end
    end.

(** [get_coordinates()] on the lines still to be read from standard
    input: the coordinates and the lines left, or [None] when [input]
    reaches the end of the input ([EOFError], which nothing catches). *)
Fixpoint get_coordinates (lines : list string)
  : option (nat * nat * list string) :=
  match lines with
  | [] => None
  | line :: rest =>
      match parse_coordinates line with
      | Some rc => Some (rc, rest)
      | None => get_coordinates rest
      end
  end.

(** ** [Player.print_board_view] *)

(** The line printed for row [r]: its letter, then the marks of the row
    between bars. *)
Definition row_line (r : nat) (row : list ascii) : string :=
  let row_label := chr (65 + r) in
  String row_label
    (String.append " |"
       (String.append (join "|" ((λ c, String c EmptyString) <$> row)) "|")).

Definition title_line (nm : string) : string :=
  String "010" (String.append "--- " (String.append nm "'s Board Status ---")).

Definition columns_line : string :=
  String.append "   " (join " " ((λ i, str (i + 1)) <$> range GRID_SIZE)).

(** The strings handed to [print], in order. *)
Definition print_board_view : M (list string) :=
  p ← get_self;
  rows ← for_acc (range GRID_SIZE) (λ printed r,
            p ← get_self;
            row ← index (guess_board p) r;
            mret (printed ++ [row_line r row])) [];
  mret (title_line (name p) :: columns_line :: rows).

(** What the display shows of a player: a function of the name and of
    the guess board alone. *)
Definition board_view (nm : string) (g : list (list ascii))
  : option (list string) :=
  rows ← mapM (λ r, row_line r <$> g !! r) (seq 0 GRID_SIZE);
  Some (title_line nm :: columns_line :: rows).

(** ** The match *)

Record Match := mkMatch {
  alice : Player;
  bob : Player;
  turn_count : nat;
  game_over : bool;
  match_random : nat → nat;
  match_entropy : nat → Rand;
  stdin : list string
}.

Inductive match_result :=
| MOk (s : Match)
| MRaise (e : exn)
| MEOFError
| MDiverge.

(** Bob's pick: resample until the cell is un-guessed.  The bounds are
    the literals of the source, not [GRID_SIZE]. *)
Fixpoint bob_guess (fuel : nat) : M (nat * nat) :=
  match fuel with
  | 0 => diverge
  | S fuel' =>
      row ← randint 0 9;
      col ← randint 0 9;
      p ← get_self;
      g ← cell (guess_board p) row col;
      if Ascii.eqb g "." then mret (row, col) else bob_guess fuel'
  end.

(** The defender of a turn, as the [self] of its methods. *)
Definition defender_world (alice_attacks : bool) (s : Match) : World :=
  mkWorld (if alice_attacks then bob s else alice s)
          (match_random s) (match_entropy s).

(** The end of the loop body: the defender is written back and
    [game_over] is set when the referee found no ship part. *)
Definition finish_turn (alice_attacks : bool) (s : Match)
    (rest : list string) (r : result (outcome * Z * bool)) : match_result :=
  match r with
  | Ok (_, _, dead) w =>
      MOk (mkMatch (if alice_attacks then alice s else self w)
                   (if alice_attacks then self w else bob s)
                   (S (turn_count s))
                   (if dead then true else game_over s)
                   (random w) (entropy w) rest)
  | Raise e => MRaise e
  | Diverge => MDiverge
  end.

(** One iteration of [while not game_over]. *)
Definition play_turn (fuel : nat) (s : Match) : match_result :=
  let count := S (turn_count s) in
  let alice_attacks := negb (count `mod` 2 =? 0) in
  let attacker := if alice_attacks then alice s else bob s in
  match print_board_view (defender_world alice_attacks s) with
  | Ok _ w =>
      if String.eqb (name attacker) "Alice" then
        match get_coordinates (stdin s) with
        | None => MEOFError
        | Some (row, col, rest) =>
            finish_turn alice_attacks s rest (turn row col w)
        end
      else
        finish_turn alice_attacks s (stdin s)
          ((rc ← bob_guess fuel; turn rc.1 rc.2) w)
  | Raise e => MRaise e
  | Diverge => MDiverge
  end.

(** The set-up of [main]: Alice's board, then Bob's. *)
Definition main_setup (pka : PublicKey) (ska : PrivateKey)
    (pkb : PublicKey) (skb : PrivateKey) (fuel : nat)
    (rnd : nat → nat) (ent : nat → Rand) (lines : list string)
  : match_result :=
  match Player_init "Alice" pka ska fuel
          (mkWorld (blank "Alice" pka ska) rnd ent) with
  | Ok _ wa =>
      match Player_init "Bob" pkb skb fuel wa with
      | Ok _ wb =>
          MOk (mkMatch (self wa) (self wb) 0 false
                       (random wb) (entropy wb) lines)
      | Raise e => MRaise e
      | Diverge => MDiverge
      end
  | Raise e => MRaise e
  | Diverge => MDiverge
  end.

(** The loop of [main], followed for at most [turns] iterations. *)
Fixpoint play (turns fuel : nat) (s : Match) : match_result :=
  if game_over s then MOk s
  else
    match turns with
    | 0 => MDiverge
    | S turns' =>
        match play_turn fuel s with
        | MOk s' => play turns' fuel s'
        | r => r
        end
    end.

(** The states of a match. *)
Inductive in_match : Match → Prop :=
| match_setup pka ska pkb skb fuel rnd ent lines s :
    keypair pka ska → keypair pkb skb →
    (Z.of_nat (GRID_SIZE * GRID_SIZE) ≤ max_int pka)%Z →
    (Z.of_nat (GRID_SIZE * GRID_SIZE) ≤ max_int pkb)%Z →
    main_setup pka ska pkb skb fuel rnd ent lines = MOk s →
    in_match s
| match_turn fuel s s' :
    in_match s → game_over s = false → play_turn fuel s = MOk s' →
    in_match s'.

(** ** Reading the guess board *)

Definition count_marks (m : ascii) (g : list (list ascii)) : nat :=
  length (filter (λ c, c = m) (concat g)).

(** Against the grid [g0] the ships were placed on, every mark of the
    guess board tells what the attack found, and an unmarked cell still
    holds what was placed. *)
Definition truthful (g0 : list (list Z)) (p : Player) : Prop :=
  ∀ row col m,
    at2 (guess_board p) row col = Some m →
    (m = "."%char ∧ at2 (plain_grid p) row col = at2 g0 row col) ∨
    (m = "X"%char ∧ at2 g0 row col = Some 1%Z ∧
       at2 (plain_grid p) row col = Some 0%Z) ∨
    (m = "O"%char ∧ at2 g0 row col ≠ Some 1%Z ∧
       at2 (plain_grid p) row col = at2 g0 row col).

(** A board of the match: the invariants of a board, with the owner's
    name. *)
Definition board_ok (nm : string) (p : Player) : Prop :=
  name p = nm ∧ consistent p ∧ marks_sound p.

Definition match_inv (s : Match) : Prop :=
  board_ok "Alice" (alice s) ∧ board_ok "Bob" (bob s).

(** Whether Alice is the attacker of the turn that follows state [s]. *)
Definition alice_next (s : Match) : bool :=
  negb (S (turn_count s) `mod` 2 =? 0).

End Match.

(** ** Concrete boards

    The scenario of the specification: a board of side 4 with one ship of
    size 2, which the draws below place horizontally at row 0, columns 0
    and 1; a configuration whose only ship is longer than the board; and
    one whose ships each fit the side but together exceed the area. *)
Module Demo.
Import ToyPaillier.

Definition small : Config := {| GRID_SIZE := 4; SHIP_SIZES := [2] |}.
Definition oversized : Config := {| GRID_SIZE := 10; SHIP_SIZES := [11] |}.
Definition crowded : Config := {| GRID_SIZE := 2; SHIP_SIZES := [2; 2; 2] |}.

Definition world_of {A} (r : result A) (w : World) : World :=
  match r with
  | Ok _ w' => w'
  | _ => w
  end.

(** Whether a run returned the value [a]. *)
Definition returns {A} `{EqDecision A} (a : A) (r : result A) : bool :=
  match r with
  | Ok a' _ => bool_decide (a' = a)
  | _ => false
  end.

(** Before [__init__]: every draw of [random] is 0 and the encryptions
    use 2, 3, 4, ... as their randomness. *)
Definition start : World :=
  mkWorld (blank (cfg := small) "Alice" toy_public toy_private)
          (λ _, 0) (λ n, (Z.of_nat n + 2)%Z).

(** After [__init__]. *)
Definition ready : World :=
  world_of (Player_init (cfg := small) "Alice" toy_public toy_private 1 start)
           start.

(** After the attack on (0, 0), a hit. *)
Definition hit_once : World := world_of (process_attack 0 0 ready) ready.

(** After the further attack on (3, 3), a miss. *)
Definition hit_and_miss : World :=
  world_of (process_attack 3 3 hit_once) hit_once.

(** The board of the program's own configuration, from draws that place
    its five ships within a few attempts each. *)
Definition real_start : World :=
  mkWorld (blank (cfg := game_config) "Bob" toy_public toy_private)
          (λ n, n * 7 + 3) (λ n, (Z.of_nat n + 2)%Z).

Definition real_ready : World :=
  world_of (Player_init (cfg := game_config) "Bob" toy_public toy_private 5
              real_start) real_start.

End Demo.

(** ** Concrete matches

    Matches on the small board, where every draw of [random] is 0: both
    players get their ship on row 0, columns 0 and 1, and Bob's first pick
    is (0, 0). *)
Module MatchDemo.
Import ToyPaillier Demo.

Definition is_ok {A} (r : result A) : bool :=
  match r with
  | Ok _ _ => true
  | _ => false
  end.

Definition value_of {A} (r : result A) (d : A) : A :=
  match r with
  | Ok a _ => a
  | _ => d
  end.

Definition is_MOk (r : match_result) : bool :=
  match r with
  | MOk _ => true
  | _ => false
  end.

Definition match_of (r : match_result) (d : Match) : Match :=
  match r with
  | MOk s => s
  | _ => d
  end.

Definition no_match : Match :=
  mkMatch (self start) (self start) 0 false (λ _, 0) (entropy start) [].

Definition setup (lines : list string) : match_result :=
  main_setup (cfg := small) toy_public toy_private toy_public toy_private 1
    (λ _, 0) (entropy start) lines.

(** Alice enters A1, then a line that is no coordinate, a1 again, A2. *)
Definition m0 : Match := match_of (setup ["A1"; "zz"; "a1"; "A2"]%string) no_match.
Definition m1 : Match := match_of (play_turn (cfg := small) 1 m0) no_match.
Definition m2 : Match := match_of (play_turn (cfg := small) 1 m1) no_match.

(** Alice enters A1 and A2 and sinks Bob's ship on the third turn. *)
Definition g0 : Match := match_of (setup ["A1"; "A2"]%string) no_match.
Definition g3 : Match := match_of (play (cfg := small) 3 1 g0) no_match.

(** Alice has nothing acceptable to enter. *)
Definition e0 : Match := match_of (setup ["zz"; ""]%string) no_match.

(** The board of [Demo.ready] when the next draws of [random] are 7. *)
Definition ready7 : World := mkWorld (self ready) (λ _, 7) (entropy ready).

End MatchDemo.

Section Facts.
Context {P : Paillier} {L : PaillierLaws P} {cfg : Config}.

(** ** Monad and grid facts *)

Lemma bind_unfold {A B} (m : M A) (f : A → M B) w :
  (m ≫= f) w =
  match m w with Ok a w' => f a w' | Raise e => Raise e | Diverge => Diverge end.
Proof. reflexivity. Qed.

Lemma bind_Ok_inv {A B} (m : M A) (f : A → M B) w b w2 :
  (m ≫= f) w = Ok b w2 → ∃ a w1, m w = Ok a w1 ∧ f a w1 = Ok b w2.
Proof. rewrite bind_unfold. destruct (m w); [eauto | done | done]. Qed.

Lemma at2_Some {A} (g : list (list A)) row col v :
  at2 g row col = Some v ↔ ∃ r, g !! row = Some r ∧ r !! col = Some v.
Proof.
  unfold at2. destruct (g !! row) as [r|]; simpl.
  - split; [eauto|]. by intros (r' & [= <-] & Hv).
  - split; [done|]. by intros (r' & [=] & _).
Qed.

Lemma at2_shape {A} (g : list (list A)) row col :
  grid_shape g → row < GRID_SIZE → col < GRID_SIZE → is_Some (at2 g row col).
Proof.
  intros [Hl Hr] Hrow Hcol.
  destruct (lookup_lt_is_Some_2 g row) as [r Hg]; [lia|].
  assert (length r = GRID_SIZE) as Hlen.
  { rewrite Forall_forall in Hr. apply Hr. eapply list_elem_of_lookup_2, Hg. }
  destruct (lookup_lt_is_Some_2 r col) as [v Hv]; [lia|].
  exists v. apply at2_Some. eauto.
Qed.

Lemma at2_lt {A} (g : list (list A)) row col v :
  grid_shape g → at2 g row col = Some v → row < GRID_SIZE ∧ col < GRID_SIZE.
Proof.
  intros [Hl Hr] (r & Hg & Hv)%at2_Some.
  pose proof (lookup_lt_Some _ _ _ Hg). pose proof (lookup_lt_Some _ _ _ Hv).
  rewrite Forall_forall in Hr.
  rewrite <- (Hr r) at 2; [lia|]. eapply list_elem_of_lookup_2, Hg.
Qed.

Lemma upd2_shape {A} (g : list (list A)) row col v :
  grid_shape g → grid_shape (upd2 g row col v).
Proof.
  intros [Hl Hr]. split; unfold upd2.
  - by rewrite length_alter.
  - apply Forall_alter; [done|]. intros r _ Hlen. by rewrite length_insert.
Qed.

Lemma at2_upd2_eq {A} (g : list (list A)) row col v :
  is_Some (at2 g row col) → at2 (upd2 g row col v) row col = Some v.
Proof.
  intros [x (r & Hg & Hx)%at2_Some]. unfold at2, upd2.
  rewrite list_lookup_alter_eq, Hg. simpl.
  apply list_lookup_insert_eq. eapply lookup_lt_Some, Hx.
Qed.

Lemma at2_upd2_ne {A} (g : list (list A)) row col v row' col' :
  (row, col) ≠ (row', col') →
  at2 (upd2 g row col v) row' col' = at2 g row' col'.
Proof.
  intros Hne. unfold at2, upd2.
  destruct (decide (row = row')) as [<-|Hr].
  - rewrite list_lookup_alter_eq. destruct (g !! row) as [r|]; simpl; [|done].
    apply list_lookup_insert_ne. congruence.
  - by rewrite list_lookup_alter_ne.
Qed.

Lemma cell_Ok {A} (g : list (list A)) row col v w :
  at2 g row col = Some v → cell g row col w = Ok v w.
Proof.
  intros (r & Hg & Hv)%at2_Some. unfold cell, index.
  rewrite bind_unfold, Hg. simpl. by rewrite Hv.
Qed.

Lemma cell_Ok_inv {A} (g : list (list A)) row col v w w' :
  cell g row col w = Ok v w' → at2 g row col = Some v ∧ w' = w.
Proof.
  unfold cell, index, at2. rewrite bind_unfold.
  destruct (g !! row) as [r|]; simpl; [|done].
  destruct (r !! col); simpl; [|done].
  unfold mret, M_ret. by intros [= -> ->].
Qed.

Lemma set_cell_Ok {A} (g : list (list A)) row col v w :
  is_Some (at2 g row col) → set_cell g row col v w = Ok (upd2 g row col v) w.
Proof.
  intros [x (r & Hg & Hx)%at2_Some]. unfold set_cell, index, upd2.
  rewrite bind_unfold, Hg. simpl.
  rewrite decide_True by (eapply lookup_lt_Some, Hx).
  unfold mret, M_ret. f_equal.
  apply list_eq. intros i. destruct (decide (i = row)) as [->|Hne].
  - rewrite list_lookup_alter_eq, Hg. simpl.
    apply list_lookup_insert_eq. eapply lookup_lt_Some, Hg.
  - by rewrite list_lookup_alter_ne, list_lookup_insert_ne.
Qed.

Lemma set_cell_Ok_inv {A} (g : list (list A)) row col v g' w w' :
  set_cell g row col v w = Ok g' w' →
  is_Some (at2 g row col) ∧ g' = upd2 g row col v ∧ w' = w.
Proof.
  intros H.
  assert (is_Some (at2 g row col)) as Hs.
  { revert H. unfold set_cell, index, at2. rewrite bind_unfold.
    destruct (g !! row) as [r|]; simpl; [|done].
    case_decide; [|done]. intros _. by apply lookup_lt_is_Some_2. }
  split; [done|]. rewrite (set_cell_Ok _ _ _ _ _ Hs) in H. by injection H.
Qed.
(** ** Counting occupied cells *)

Lemma ones_cons v l : ones (v :: l) = bit_value v + ones l.
Proof.
  unfold ones, bit_value. rewrite filter_cons.
  case_decide; simpl; lia.
Qed.

Lemma count_ones_cons r g : count_ones (r :: g) = ones r + count_ones g.
Proof.
  unfold count_ones, ones. simpl. by rewrite filter_app, length_app.
Qed.

Lemma ones_le_length l : ones l ≤ length l.
Proof. apply length_filter. Qed.

Lemma count_ones_le (g : list (list Z)) :
  grid_shape g → count_ones g ≤ GRID_SIZE * GRID_SIZE.
Proof.
  intros [Hl Hr]. rewrite <- Hl at 1. clear Hl.
  induction Hr as [|r g Hlen _ IH]; [unfold count_ones; simpl; lia|].
  rewrite count_ones_cons. pose proof (ones_le_length r). simpl. lia.
Qed.

Lemma ones_insert l c v x :
  l !! c = Some x →
  ones (<[c := v]> l) + bit_value x = ones l + bit_value v.
Proof.
  revert c. induction l as [|y l IH]; intros [|c] Hc; simplify_eq/=.
  - rewrite !ones_cons. lia.
  - rewrite !ones_cons. specialize (IH _ Hc). lia.
Qed.

Lemma count_ones_upd2 g row col v x :
  at2 g row col = Some x →
  count_ones (upd2 g row col v) + bit_value x = count_ones g + bit_value v.
Proof.
  intros (r & Hg & Hx)%at2_Some. unfold upd2. revert row Hg.
  induction g as [|r' g IH]; intros [|row] Hg; simplify_eq/=.
  - rewrite !count_ones_cons. pose proof (ones_insert _ _ v _ Hx). lia.
  - rewrite !count_ones_cons. specialize (IH _ Hg). lia.
Qed.

Lemma bits_upd2 g row col v :
  bits g → v = 0%Z ∨ v = 1%Z → bits (upd2 g row col v).
Proof.
  intros Hb Hv. apply Forall_alter; [done|].
  intros r _ Hr. by apply Forall_insert.
Qed.

Lemma bits_at2 g row col v :
  bits g → at2 g row col = Some v → v = 0%Z ∨ v = 1%Z.
Proof.
  intros Hb (r & Hg & Hv)%at2_Some.
  eapply Forall_lookup_1 in Hg; [|exact Hb]. simpl in Hg.
  eapply Forall_lookup_1 in Hv; [|exact Hg]. done.
Qed.

(** Runs the straight-line prefix of a computation whose grid accesses
    are known to succeed. *)
Ltac mrun :=
  repeat (first [ erewrite cell_Ok by eassumption
                | rewrite set_cell_Ok by (simpl; eauto)
                | rewrite bind_unfold ]; simpl).

(** ** What one call of [receive_attack] does *)

Lemma receive_attack_hit row col w ct :
  at2 (plain_grid (self w)) row col = Some 1%Z →
  at2 (encrypted_grid (self w)) row col = Some (Some ct) →
  is_Some (at2 (guess_board (self w)) row col) →
  receive_attack row col w = Ok true (after_hit w row col ct).
Proof.
  intros Hp He Hg. unfold receive_attack. mrun. reflexivity.
Qed.

Lemma receive_attack_miss row col w v :
  at2 (plain_grid (self w)) row col = Some v → v ≠ 1%Z →
  is_Some (at2 (guess_board (self w)) row col) →
  receive_attack row col w = Ok false (after_miss w row col).
Proof.
  intros Hp Hv%Z.eqb_neq Hg. unfold receive_attack. mrun.
  rewrite Hv. mrun. reflexivity.
Qed.

Lemma cell_None {A} (g : list (list A)) row col w :
  at2 g row col = None → cell g row col w = Raise IndexError.
Proof.
  unfold at2, cell, index. rewrite bind_unfold.
  destruct (g !! row) as [r|]; simpl; [|done].
  by intros ->.
Qed.

(** ** Invariant preservation *)

Lemma consistent_at p row col :
  consistent p → row < GRID_SIZE → col < GRID_SIZE →
  ∃ v ct, at2 (plain_grid p) row col = Some v ∧
          at2 (encrypted_grid p) row col = Some (Some ct) ∧
          decrypt (private_key p) ct = Some v ∧
          (v = 0%Z ∨ v = 1%Z) ∧
          is_Some (at2 (guess_board p) row col).
Proof.
  intros Hc Hrow Hcol.
  destruct (cons_I1 _ Hc row col Hrow Hcol) as (v & ct & Hp & He & Hd).
  exists v, ct. repeat split; try done.
  - eapply bits_at2; [apply Hc | done].
  - apply at2_shape; [apply Hc | done..].
Qed.

Lemma capacity_one p row :
  consistent p → row < GRID_SIZE → (1 ≤ max_int (public_key p))%Z.
Proof. intros Hc Hrow. pose proof (cons_capacity _ Hc). nia. Qed.

Lemma consistent_after_hit w row col ct :
  consistent (self w) →
  at2 (plain_grid (self w)) row col = Some 1%Z →
  at2 (encrypted_grid (self w)) row col = Some (Some ct) →
  consistent (self (after_hit w row col ct)).
Proof.
  intros Hc Hp He.
  destruct (at2_lt _ _ _ _ (cons_plain _ Hc) Hp) as [Hrow Hcol].
  destruct (consistent_at _ _ _ Hc Hrow Hcol) as (v & ct' & Hp' & He' & Hd & _ & Hg).
  assert (v = 1%Z) as -> by congruence. assert (ct' = ct) as -> by congruence.
  pose proof (capacity_one _ _ Hc Hrow) as Hcap.
  split; simpl; try apply Hc.
  - apply upd2_shape, Hc.
  - apply upd2_shape, Hc.
  - apply upd2_shape, Hc.
  - apply bits_upd2; [apply Hc | by left].
  - intros r c Hr Hcc. unfold cell_consistent; simpl.
    destruct (decide ((row, col) = (r, c))) as [[= <- <-]|Hne].
    + eexists _, _. rewrite !at2_upd2_eq by eauto. repeat split.
      change 0%Z with (1 + -1)%Z.
      eapply decrypt_add; [apply Hc | done | | lia].
      apply decrypt_encrypt; [apply Hc | lia].
    + rewrite !at2_upd2_ne by done. by apply (cons_I1 _ Hc).
Qed.

Lemma consistent_after_miss w row col :
  consistent (self w) → consistent (self (after_miss w row col)).
Proof.
  intros Hc. split; simpl; try apply Hc.
  apply upd2_shape, Hc.
Qed.

(** Every successful call is one of the two runs above. *)
Lemma receive_attack_inv row col w b w' :
  consistent (self w) →
  receive_attack row col w = Ok b w' →
  (b = true ∧ ∃ ct, at2 (plain_grid (self w)) row col = Some 1%Z ∧
                    at2 (encrypted_grid (self w)) row col = Some (Some ct) ∧
                    w' = after_hit w row col ct) ∨
  (b = false ∧ ∃ v, at2 (plain_grid (self w)) row col = Some v ∧ v ≠ 1%Z ∧
                    w' = after_miss w row col).
Proof.
  intros Hc Hrun.
  destruct (at2 (plain_grid (self w)) row col) as [v|] eqn:Hp.
  - destruct (at2_lt _ _ _ _ (cons_plain _ Hc) Hp) as [Hrow Hcol].
    destruct (consistent_at _ _ _ Hc Hrow Hcol) as (v' & ct & Hp' & He & _ & _ & Hg).
    assert (v' = v) as -> by congruence. clear Hp'.
    destruct (decide (v = 1%Z)) as [->|Hv].
    + rewrite (receive_attack_hit _ _ _ _ Hp He Hg) in Hrun.
      simplify_eq. left. eauto.
    + rewrite (receive_attack_miss _ _ _ _ Hp Hv Hg) in Hrun.
      simplify_eq. right. eauto.
  - unfold receive_attack in Hrun. rewrite bind_unfold in Hrun. simpl in Hrun.
    rewrite bind_unfold, (cell_None _ _ _ _ Hp) in Hrun. done.
Qed.

Lemma receive_attack_total row col w :
  consistent (self w) → row < GRID_SIZE → col < GRID_SIZE →
  ∃ b w', receive_attack row col w = Ok b w'.
Proof.
  intros Hc Hrow Hcol.
  destruct (consistent_at _ _ _ Hc Hrow Hcol) as (v & ct & Hp & He & _ & _ & Hg).
  destruct (decide (v = 1%Z)) as [->|Hv].
  - eexists _, _. by apply receive_attack_hit.
  - eexists _, _. by eapply receive_attack_miss.
Qed.

Lemma receive_attack_consistent row col w b w' :
  consistent (self w) → receive_attack row col w = Ok b w' →
  consistent (self w').
Proof.
  intros Hc Hrun.
  destruct (receive_attack_inv _ _ _ _ _ Hc Hrun)
    as [(_ & ct & Hp & He & ->)|(_ & v & Hp & Hv & ->)].
  - by apply consistent_after_hit.
  - by apply consistent_after_miss.
Qed.

(** ** The guarded step of [main] *)

Lemma process_attack_repeat row col w g :
  at2 (guess_board (self w)) row col = Some g → g ≠ "."%char →
  process_attack row col w = Ok AlreadyAttacked w.
Proof.
  intros Hg Hne. unfold process_attack. mrun.
  apply Ascii.eqb_neq in Hne. by rewrite Hne.
Qed.

Lemma process_attack_fresh row col w :
  at2 (guess_board (self w)) row col = Some "."%char →
  process_attack row col w =
  match receive_attack row col w with
  | Ok is_hit w' => Ok (if is_hit then Hit else Miss) w'
  | Raise e => Raise e
  | Diverge => Diverge
  end.
Proof.
  intros Hg. unfold process_attack. mrun.
  destruct (receive_attack row col w); done.
Qed.

Lemma process_attack_inv row col w o w' :
  process_attack row col w = Ok o w' →
  (o = AlreadyAttacked ∧ w' = w ∧
     ∃ g, at2 (guess_board (self w)) row col = Some g ∧ g ≠ "."%char) ∨
  (at2 (guess_board (self w)) row col = Some "."%char ∧
     ∃ b, receive_attack row col w = Ok b w' ∧ o = if b then Hit else Miss).
Proof.
  intros Hrun.
  destruct (at2 (guess_board (self w)) row col) as [g|] eqn:Hg.
  - destruct (decide (g = "."%char)) as [->|Hne].
    + right. split; [done|]. rewrite (process_attack_fresh _ _ _ Hg) in Hrun.
      destruct (receive_attack row col w) as [b w1| |]; simplify_eq. eauto.
    + left. rewrite (process_attack_repeat _ _ _ _ Hg Hne) in Hrun.
      simplify_eq. eauto.
  - unfold process_attack in Hrun. rewrite bind_unfold in Hrun. simpl in Hrun.
    rewrite bind_unfold, (cell_None _ _ _ _ Hg) in Hrun. done.
Qed.

Lemma process_attack_consistent row col w o w' :
  consistent (self w) → process_attack row col w = Ok o w' →
  consistent (self w').
Proof.
  intros Hc Hrun.
  destruct (process_attack_inv _ _ _ _ _ Hrun)
    as [(_ & -> & _)|(_ & b & Hr & _)]; [done|].
  by eapply receive_attack_consistent.
Qed.

Lemma process_attack_total row col w :
  consistent (self w) → row < GRID_SIZE → col < GRID_SIZE →
  ∃ o w', process_attack row col w = Ok o w'.
Proof.
  intros Hc Hrow Hcol.
  destruct (consistent_at _ _ _ Hc Hrow Hcol) as (_ & _ & _ & _ & _ & _ & [g Hg]).
  destruct (decide (g = "."%char)) as [->|Hne].
  - rewrite (process_attack_fresh _ _ _ Hg).
    destruct (receive_attack_total _ _ _ Hc Hrow Hcol) as (b & w' & ->). eauto.
  - rewrite (process_attack_repeat _ _ _ _ Hg Hne). eauto.
Qed.

(** ** The homomorphic sum *)

Lemma range_seq n : range n = seq 0 n.
Proof. unfold range, range2. by rewrite Nat.sub_0_r. Qed.

Lemma bit_value_bit v : v = 0%Z ∨ v = 1%Z → Z.of_nat (bit_value v) = v.
Proof. unfold bit_value. intros [->| ->]; by case_decide. Qed.

Lemma health_row w r pr m : ∀ k acc a,
  consistent (self w) → r < GRID_SIZE →
  plain_grid (self w) !! r = Some pr →
  k + m = GRID_SIZE →
  decrypt (private_key (self w)) acc = Some a →
  (0 ≤ a)%Z →
  (a + Z.of_nat (ones (drop k pr)) ≤ max_int (public_key (self w)))%Z →
  ∃ acc',
    for_acc (seq k m) (λ encrypted_total c,
      p ← get_self;
      ct ← cell (encrypted_grid p) r c;
      ct_add (Some encrypted_total) ct) acc w = Ok acc' w ∧
    decrypt (private_key (self w)) acc' =
      Some (a + Z.of_nat (ones (drop k pr)))%Z.
Proof.
  induction m as [|m IH]; intros k acc a Hc Hr Hpr Hkm Hacc Ha Hcap.
  - exists acc. split; [done|].
    assert (length pr = GRID_SIZE) as Hlen.
    { destruct (cons_plain _ Hc) as [_ Hrows].
      eapply Forall_lookup_1 in Hrows; [|exact Hpr]. done. }
    rewrite drop_ge by lia. unfold ones. simpl. rewrite Z.add_0_r. done.
  - assert (k < GRID_SIZE) as Hk by lia.
    destruct (consistent_at _ _ _ Hc Hr Hk) as (v & ct & Hp & He & Hd & Hbit & _).
    assert (pr !! k = Some v) as Hv.
    { apply at2_Some in Hp as (pr' & Hpr' & Hv). congruence. }
    rewrite (drop_S _ _ _ Hv), ones_cons in Hcap |- *.
    rewrite Nat2Z.inj_add, (bit_value_bit _ Hbit) in Hcap |- *.
    simpl. mrun.
    pose proof (Nat2Z.is_nonneg (ones (drop (S k) pr))).
    destruct (IH (S k) (add acc ct) (a + v)%Z) as (acc' & Hrun & Hdec);
      try done; try lia.
    + eapply decrypt_add; [apply Hc | done | done | lia].
    + exists acc'. split; [done|]. rewrite Hdec. f_equal. lia.
Qed.

Lemma health_rows w m : ∀ k acc a,
  consistent (self w) →
  k + m = GRID_SIZE →
  decrypt (private_key (self w)) acc = Some a →
  (0 ≤ a)%Z →
  (a + Z.of_nat (count_ones (drop k (plain_grid (self w))))
     ≤ max_int (public_key (self w)))%Z →
  ∃ acc',
    for_acc (seq k m) (λ encrypted_total r,
      for_acc (seq 0 GRID_SIZE) (λ encrypted_total c,
        p ← get_self;
        ct ← cell (encrypted_grid p) r c;
        ct_add (Some encrypted_total) ct) encrypted_total) acc w = Ok acc' w ∧
    decrypt (private_key (self w)) acc' =
      Some (a + Z.of_nat (count_ones (drop k (plain_grid (self w)))))%Z.
Proof.
  induction m as [|m IH]; intros k acc a Hc Hkm Hacc Ha Hcap.
  - exists acc. split; [done|].
    destruct (cons_plain _ Hc) as [Hlen _].
    rewrite drop_ge by lia. unfold count_ones. simpl. rewrite Z.add_0_r. done.
  - assert (k < GRID_SIZE) as Hk by lia.
    destruct (lookup_lt_is_Some_2 (plain_grid (self w)) k) as [pr Hpr].
    { destruct (cons_plain _ Hc) as [Hlen _]. lia. }
    rewrite (drop_S _ _ _ Hpr), count_ones_cons, Nat2Z.inj_add in Hcap |- *.
    pose proof (Nat2Z.is_nonneg (count_ones (drop (S k) (plain_grid (self w))))).
    pose proof (Nat2Z.is_nonneg (ones pr)).
    destruct (health_row w k pr GRID_SIZE 0 acc a) as (acc1 & Hrow & Hdec1);
      try done; try (rewrite drop_0; lia).
    rewrite drop_0 in Hdec1.
    destruct (IH (S k) acc1 (a + Z.of_nat (ones pr))%Z) as (acc' & Hrun & Hdec);
      try done; try lia.
    exists acc'. split.
    + cbn [for_acc seq]. rewrite bind_unfold, Hrow. done.
    + rewrite Hdec. f_equal. lia.
Qed.

Lemma check_health_consistent w :
  consistent (self w) →
  check_health_homomorphically w =
    Ok (Z.of_nat (count_ones (plain_grid (self w)))) (after_health w).
Proof.
  intros Hc.
  pose proof (cons_capacity _ Hc) as Hcap.
  pose proof (count_ones_le _ (cons_plain _ Hc)) as Hle.
  assert (decrypt (private_key (self w))
            (encrypt (public_key (self w)) (entropy w 0) 0) = Some 0%Z) as Hd0.
  { apply decrypt_encrypt; [apply Hc | lia]. }
  destruct (health_rows (after_health w) GRID_SIZE 0 _ 0%Z Hc eq_refl Hd0)
    as (acc' & Hrun & Hdec); [lia | rewrite drop_0; simpl; lia |].
  rewrite drop_0 in Hdec. simpl in Hdec.
  unfold check_health_homomorphically.
  rewrite bind_unfold. unfold encrypt_fresh. cbv beta iota.
  rewrite range_seq, bind_unfold. unfold after_health in Hrun. rewrite Hrun.
  unfold decrypt_own. rewrite bind_unfold. simpl. by rewrite Hdec.
Qed.

(** ** Ship placement *)

Lemma range2_seq a n : range2 a (a + n) = seq a n.
Proof. unfold range2. f_equal. lia. Qed.

Lemma scan_blocked (pos : nat → nat * nat) l w :
  for_return l (λ x,
    p ← get_self;
    v ← cell (plain_grid p) (pos x).1 (pos x).2;
    mret (if (v =? 1)%Z then Some false else None)) w =
  match blocked (plain_grid (self w)) (pos <$> l) with
  | None => Raise IndexError
  | Some true => Ok (Some false) w
  | Some false => Ok None w
  end.
Proof.
  induction l as [|x l IH]; [done|].
  cbn [for_return fmap list_fmap blocked].
  destruct (pos x) as [r c] eqn:Hpos. cbn [fst snd].
  rewrite bind_unfold, bind_unfold. cbn [get_self].
  rewrite bind_unfold.
  destruct (at2 (plain_grid (self w)) r c) as [v|] eqn:Hv.
  - rewrite (cell_Ok _ _ _ _ _ Hv). cbn [mret M_ret].
    destruct (v =? 1)%Z; [done|]. apply IH.
  - by rewrite (cell_None _ _ _ _ Hv).
Qed.

Lemma is_valid_placement_eq row col size o w :
  is_valid_placement row col size o w =
  if GRID_SIZE <? (if Ascii.eqb o "H" then col else row) + size
  then Ok false w
  else match blocked (plain_grid (self w)) (ship_cells row col size o) with
       | None => Raise IndexError
       | Some b => Ok (negb b) w
       end.
Proof.
  unfold is_valid_placement, ship_cells.
  destruct (Ascii.eqb o "H").
  - destruct (GRID_SIZE <? col + size); [done|].
    rewrite bind_unfold, range2_seq.
    pose proof (scan_blocked (λ c, (row, c)) (seq col size) w) as Hs.
    cbn [fst snd] in Hs. rewrite Hs.
    by destruct (blocked _ _) as [[]|].
  - destruct (GRID_SIZE <? row + size); [done|].
    rewrite bind_unfold, range2_seq.
    pose proof (scan_blocked (λ r, (r, col)) (seq row size) w) as Hs.
    cbn [fst snd] in Hs. rewrite Hs.
    by destruct (blocked _ _) as [[]|].
Qed.

Lemma blocked_free g cells :
  blocked g cells = Some false ↔
  Forall (λ rc, ∃ v, at2 g rc.1 rc.2 = Some v ∧ v ≠ 1%Z) cells.
Proof.
  induction cells as [|[r c] cells IH]; simpl.
  - split; [by constructor | done].
  - destruct (at2 g r c) as [v|] eqn:Hv.
    + destruct (Z.eqb_spec v 1) as [->|Hne].
      * split; [done|]. intros [(v & Hv' & Hne) _]%Forall_cons. simpl in Hv'. congruence.
      * rewrite IH. split.
        -- intros H. constructor; [simpl; eauto | done].
        -- by intros [_ H]%Forall_cons.
    + split; [done|]. intros [(v & Hv' & _) _]%Forall_cons. simpl in Hv'. congruence.
Qed.

Lemma blocked_defined g cells :
  Forall (λ rc, is_Some (at2 g rc.1 rc.2)) cells → is_Some (blocked g cells).
Proof.
  induction 1 as [|[r c] cells [v Hv] _ IH]; simpl; [eauto|].
  simpl in Hv. rewrite Hv. destruct (v =? 1)%Z; eauto.
Qed.

Lemma at2_upd2_is_Some {A} (g : list (list A)) row col v row' col' :
  is_Some (at2 g row' col') → is_Some (at2 (upd2 g row col v) row' col').
Proof.
  intros Hs. destruct (decide ((row, col) = (row', col'))) as [[= <- <-]|Hne].
  - rewrite at2_upd2_eq; eauto.
  - by rewrite at2_upd2_ne.
Qed.

Lemma fill_run (pos : nat → nat * nat) l : ∀ w,
  Forall (λ rc, is_Some (at2 (plain_grid (self w)) rc.1 rc.2)) (pos <$> l) →
  for_ l (λ x,
    p ← get_self;
    g ← set_cell (plain_grid p) (pos x).1 (pos x).2 1%Z;
    put_self (with_plain_grid p g)) w =
  Ok tt (mkWorld (with_plain_grid (self w)
                    (fill (plain_grid (self w)) (pos <$> l)))
                 (random w) (entropy w)).
Proof.
  induction l as [|x l IH]; intros w Hall.
  - destruct w as [[] ? ?]. done.
  - apply Forall_cons in Hall as [Hx Hall].
    cbn [for_]. rewrite bind_unfold, bind_unfold. cbn [get_self].
    rewrite bind_unfold, (set_cell_Ok _ _ _ _ _ Hx). cbn [put_self].
    rewrite IH.
    + done.
    + simpl. eapply Forall_impl; [exact Hall|].
      intros rc. apply at2_upd2_is_Some.
Qed.

Lemma set_ship_eq row col size o w :
  Forall (λ rc, is_Some (at2 (plain_grid (self w)) rc.1 rc.2))
         (ship_cells row col size o) →
  set_ship row col size o w =
  Ok tt (mkWorld (with_plain_grid (self w)
                    (fill (plain_grid (self w)) (ship_cells row col size o)))
                 (random w) (entropy w)).
Proof.
  unfold set_ship, ship_cells. destruct (Ascii.eqb o "H"); intros Hall.
  - rewrite range2_seq.
    pose proof (fill_run (λ c, (row, c)) (seq col size) w Hall) as Hf.
    cbn [fst snd] in Hf. exact Hf.
  - rewrite range2_seq.
    pose proof (fill_run (λ r, (r, col)) (seq row size) w Hall) as Hf.
    cbn [fst snd] in Hf. exact Hf.
Qed.

Lemma fill_shape g cells : grid_shape g → grid_shape (fill g cells).
Proof.
  revert g. induction cells as [|rc cells IH]; intros g Hg; [done|].
  simpl. apply IH, upd2_shape, Hg.
Qed.

Lemma fill_bits g cells : bits g → bits (fill g cells).
Proof.
  revert g. induction cells as [|rc cells IH]; intros g Hg; [done|].
  simpl. apply IH, bits_upd2; [done | by right].
Qed.

Lemma count_ones_fill cells : ∀ g,
  NoDup cells →
  Forall (λ rc, ∃ v, at2 g rc.1 rc.2 = Some v ∧ v ≠ 1%Z) cells →
  count_ones (fill g cells) = count_ones g + length cells.
Proof.
  induction cells as [|[r c] cells IH]; intros g Hnd Hfree; [simpl; lia|].
  apply NoDup_cons in Hnd as [Hnotin Hnd].
  apply Forall_cons in Hfree as [(v & Hv & Hne) Hfree]. simpl in Hv.
  simpl. rewrite IH; [|done|].
  - pose proof (count_ones_upd2 g r c 1%Z v Hv) as Hcount.
    unfold bit_value in Hcount. rewrite decide_False, decide_True in Hcount by done.
    lia.
  - apply Forall_forall. intros [r' c'] Hin.
    rewrite Forall_forall in Hfree. destruct (Hfree _ Hin) as (v' & Hv' & Hne').
    exists v'. split; [|done]. simpl in *.
    rewrite at2_upd2_ne; [done|]. intros [= -> ->]. done.
Qed.

Lemma ship_cells_NoDup row col size o : NoDup (ship_cells row col size o).
Proof.
  unfold ship_cells. destruct (Ascii.eqb o "H").
  - apply NoDup_fmap_2; [|apply NoDup_seq]. by intros ?? [=].
  - apply NoDup_fmap_2; [|apply NoDup_seq]. by intros ?? [=].
Qed.

Lemma ship_cells_length row col size o :
  length (ship_cells row col size o) = size.
Proof.
  unfold ship_cells. destruct (Ascii.eqb o "H"); by rewrite length_fmap, length_seq.
Qed.

Lemma ship_cells_bounds row col size o r c :
  (r, c) ∈ ship_cells row col size o →
  if Ascii.eqb o "H" then r = row ∧ col ≤ c < col + size
  else c = col ∧ row ≤ r < row + size.
Proof.
  unfold ship_cells. destruct (Ascii.eqb o "H").
  - intros (x & [= -> ->] & Hx%elem_of_seq)%list_elem_of_fmap. lia.
  - intros (x & [= -> ->] & Hx%elem_of_seq)%list_elem_of_fmap. lia.
Qed.

Lemma randint_grid w :
  1 ≤ GRID_SIZE →
  randint 0 (Z.of_nat GRID_SIZE - 1) w =
  Ok (random w 0 `mod` GRID_SIZE)
     (mkWorld (self w) (λ n, random w (S n)) (entropy w)).
Proof.
  intros Hg. unfold randint.
  destruct (Z.ltb_spec (Z.of_nat GRID_SIZE - 1) 0) as [?|_]; [lia|].
  rewrite bind_unfold. cbn [draw mret M_ret]. f_equal.
  replace (Z.of_nat GRID_SIZE - 1 - 0 + 1)%Z with (Z.of_nat GRID_SIZE) by lia.
  rewrite Z.add_0_l, <- Nat2Z.inj_mod. apply Nat2Z.id.
Qed.

Lemma randint_empty w :
  GRID_SIZE = 0 → randint 0 (Z.of_nat GRID_SIZE - 1) w = Raise ValueError.
Proof. intros ->. done. Qed.

Lemma choice_orientation w :
  choice ["H"; "V"]%char w =
  Ok (drawn_orientation w)
     (mkWorld (self w) (λ n, random w (S n)) (entropy w)).
Proof.
  unfold choice, drawn_orientation. rewrite bind_unfold. cbn [draw length].
  pose proof (Nat.mod_upper_bound (random w 0) 2 ltac:(lia)) as Hlt.
  destruct (random w 0 `mod` 2) as [|[|n]]; [done | done | lia].
Qed.

(** One iteration of the [while not placed] loop. *)
Lemma place_ship_step fuel size w :
  1 ≤ GRID_SIZE →
  place_ship (S fuel) size w =
  match is_valid_placement (drawn_row w) (drawn_col w) size
          (drawn_orientation w) (after_draws w) with
  | Ok true w' =>
      set_ship (drawn_row w) (drawn_col w) size (drawn_orientation w) w'
  | Ok false w' => place_ship fuel size w'
  | Raise e => Raise e
  | Diverge => Diverge
  end.
Proof.
  intros Hg. cbn [place_ship].
  rewrite bind_unfold, choice_orientation.
  rewrite bind_unfold, (randint_grid _ Hg).
  rewrite bind_unfold, (randint_grid _ Hg).
  rewrite bind_unfold. cbn [self random entropy].
  unfold drawn_row, drawn_col, after_draws.
  by destruct (is_valid_placement _ _ _ _ _) as [[] ?| |].
Qed.

Lemma place_ship_empty fuel size w :
  GRID_SIZE = 0 → place_ship (S fuel) size w = Raise ValueError.
Proof.
  intros Hg. cbn [place_ship].
  rewrite bind_unfold, choice_orientation.
  by rewrite bind_unfold, (randint_empty _ Hg).
Qed.

(** An accepted draw lies on the board and on free cells. *)
Lemma accepted_cells row col size o w :
  grid_shape (plain_grid (self w)) →
  is_valid_placement row col size o w = Ok true w →
  Forall (λ rc, rc.1 < GRID_SIZE ∧ rc.2 < GRID_SIZE ∧
                ∃ v, at2 (plain_grid (self w)) rc.1 rc.2 = Some v ∧ v ≠ 1%Z)
         (ship_cells row col size o).
Proof.
  intros Hshape. rewrite is_valid_placement_eq.
  destruct (GRID_SIZE <? _); [done|].
  destruct (blocked _ _) as [[]|] eqn:Hb; [done | | done].
  intros _. apply blocked_free in Hb.
  eapply Forall_impl; [exact Hb|]. intros [r c] (v & Hv & Hne).
  destruct (at2_lt _ _ _ _ Hshape Hv). eauto.
Qed.

Lemma is_valid_placement_frame row col size o w b w' :
  is_valid_placement row col size o w = Ok b w' → w' = w.
Proof.
  rewrite is_valid_placement_eq.
  destruct (GRID_SIZE <? _); [by intros [= _ ->]|].
  destruct (blocked _ _) as [?|]; [by intros [= _ ->] | done].
Qed.

(** On a well-shaped grid the check answers for every draw on the board. *)
Lemma is_valid_placement_total row col size o w :
  grid_shape (plain_grid (self w)) →
  row < GRID_SIZE → col < GRID_SIZE →
  ∃ b, is_valid_placement row col size o w = Ok b w.
Proof.
  intros Hshape Hrow Hcol. rewrite is_valid_placement_eq.
  destruct (Nat.ltb_spec GRID_SIZE ((if Ascii.eqb o "H" then col else row) + size))
    as [?|Hfit]; [eauto|].
  destruct (blocked_defined (plain_grid (self w)) (ship_cells row col size o))
    as [b Hb]; [|rewrite Hb; eauto].
  apply Forall_forall. intros [r c] Hin%ship_cells_bounds.
  apply at2_shape; [done|..]; simpl; destruct (Ascii.eqb o "H"); lia.
Qed.

Lemma set_ship_accepted row col size o w :
  grid_shape (plain_grid (self w)) → bits (plain_grid (self w)) →
  is_valid_placement row col size o w = Ok true w →
  ∃ w', set_ship row col size o w = Ok tt w' ∧ placing w w' ∧
        count_ones (plain_grid (self w')) =
          count_ones (plain_grid (self w)) + size.
Proof.
  intros Hshape Hbits Hok.
  pose proof (accepted_cells _ _ _ _ _ Hshape Hok) as Hcells.
  eexists. split; [|split].
  - apply set_ship_eq. eapply Forall_impl; [exact Hcells|].
    intros rc (_ & _ & v & Hv & _). eauto.
  - eexists. split; [done|]. cbn [self entropy].
    split; [by apply fill_shape|]. split; [by apply fill_bits | done].
  - cbn [self plain_grid with_plain_grid].
    rewrite count_ones_fill, ship_cells_length; [done | apply ship_cells_NoDup |].
    eapply Forall_impl; [exact Hcells|]. intros rc (_ & _ & H). exact H.
Qed.

Lemma placing_refl w :
  grid_shape (plain_grid (self w)) → bits (plain_grid (self w)) → placing w w.
Proof. intros ??. exists (plain_grid (self w)). by destruct w as [[] ? ?]. Qed.

Lemma placing_trans w1 w2 w3 : placing w1 w2 → placing w2 w3 → placing w1 w3.
Proof.
  intros (g & Hs & _ & _ & He) (g' & Hs' & ? & ? & He').
  exists g'. rewrite Hs', Hs, He', He. done.
Qed.

Lemma placing_plain w w' :
  placing w w' →
  grid_shape (plain_grid (self w')) ∧ bits (plain_grid (self w')).
Proof. intros (g & -> & ? & ? & _). done. Qed.

Lemma place_ship_Ok fuel size : ∀ w w',
  grid_shape (plain_grid (self w)) → bits (plain_grid (self w)) →
  place_ship fuel size w = Ok tt w' →
  placing w w' ∧
  count_ones (plain_grid (self w')) = count_ones (plain_grid (self w)) + size.
Proof.
  induction fuel as [|fuel IH]; intros w w' Hshape Hbits Hrun; [done|].
  destruct (decide (GRID_SIZE = 0)) as [Hz|Hnz].
  { by rewrite place_ship_empty in Hrun. }
  rewrite place_ship_step in Hrun by lia.
  destruct (is_valid_placement _ _ _ _ _) as [b w1| |] eqn:Hvalid; [|done..].
  pose proof (is_valid_placement_frame _ _ _ _ _ _ _ Hvalid) as ->.
  destruct b.
  - destruct (set_ship_accepted _ _ _ _ (after_draws w) Hshape Hbits Hvalid)
      as (w2 & Hset & Hpl & Hcount).
    rewrite Hset in Hrun. by simplify_eq.
  - destruct (IH (after_draws w) _ Hshape Hbits Hrun) as [Hpl Hcount]. done.
Qed.

Lemma place_ship_no_raise fuel size e : ∀ w,
  1 ≤ GRID_SIZE →
  grid_shape (plain_grid (self w)) → bits (plain_grid (self w)) →
  place_ship fuel size w ≠ Raise e.
Proof.
  induction fuel as [|fuel IH]; intros w Hg Hshape Hbits; [done|].
  rewrite place_ship_step by done.
  destruct (is_valid_placement_total (drawn_row w) (drawn_col w) size
              (drawn_orientation w) (after_draws w) Hshape) as [b Hvalid].
  { apply Nat.mod_upper_bound. lia. }
  { apply Nat.mod_upper_bound. lia. }
  rewrite Hvalid. destruct b.
  - destruct (set_ship_accepted _ _ _ _ (after_draws w) Hshape Hbits Hvalid)
      as (w2 & -> & _).
    done.
  - by apply IH.
Qed.

(** A ship longer than the board side is rejected at every draw. *)
Lemma place_ship_too_long fuel size : ∀ w,
  1 ≤ GRID_SIZE → GRID_SIZE < size → place_ship fuel size w = Diverge.
Proof.
  induction fuel as [|fuel IH]; intros w Hg Hsize; [done|].
  rewrite place_ship_step, is_valid_placement_eq by done.
  destruct (Nat.ltb_spec GRID_SIZE
    ((if Ascii.eqb (drawn_orientation w) "H" then drawn_col w else drawn_row w) + size))
    as [_|?]; [|lia].
  by apply IH.
Qed.

Lemma place_all_Ok fuel sizes : ∀ w w',
  grid_shape (plain_grid (self w)) → bits (plain_grid (self w)) →
  for_ sizes (place_ship fuel) w = Ok tt w' →
  placing w w' ∧
  count_ones (plain_grid (self w')) =
    count_ones (plain_grid (self w)) + sum_list sizes.
Proof.
  induction sizes as [|size sizes IH]; intros w w' Hshape Hbits Hrun.
  - injection Hrun as <-. split; [by apply placing_refl | simpl; lia].
  - cbn [for_] in Hrun. apply bind_Ok_inv in Hrun as ([] & w1 & Hone & Hrest).
    destruct (place_ship_Ok _ _ _ _ Hshape Hbits Hone) as [Hpl Hcount].
    destruct (placing_plain _ _ Hpl) as [Hshape1 Hbits1].
    destruct (IH _ _ Hshape1 Hbits1 Hrest) as [Hpl' Hcount'].
    split; [by eapply placing_trans|]. simpl. lia.
Qed.

Lemma place_all_no_raise fuel sizes e : ∀ w,
  1 ≤ GRID_SIZE →
  grid_shape (plain_grid (self w)) → bits (plain_grid (self w)) →
  for_ sizes (place_ship fuel) w ≠ Raise e.
Proof.
  induction sizes as [|size sizes IH]; intros w Hg Hshape Hbits; [done|].
  cbn [for_]. rewrite bind_unfold.
  destruct (place_ship fuel size w) as [[] w1|e'|] eqn:Hone; [| |done].
  - destruct (place_ship_Ok _ _ _ _ Hshape Hbits Hone) as [Hpl _].
    destruct (placing_plain _ _ Hpl). by apply IH.
  - by apply place_ship_no_raise in Hone.
Qed.

Lemma place_all_too_long fuel sizes size w' : ∀ w,
  1 ≤ GRID_SIZE → size ∈ sizes → GRID_SIZE < size →
  for_ sizes (place_ship fuel) w ≠ Ok tt w'.
Proof.
  induction sizes as [|s sizes IH]; intros w Hg Hin Hsize.
  - by apply elem_of_nil in Hin.
  - cbn [for_]. rewrite bind_unfold.
    apply elem_of_cons in Hin as [<-|Hin].
    + by rewrite place_ship_too_long.
    + destruct (place_ship fuel s w) as [[] w1| |]; [|done..]. by apply IH.
Qed.

(** ** The initial encryption *)

Lemma encrypting_refl w : grid_shape (encrypted_grid (self w)) → encrypting w w.
Proof. intros ?. exists (encrypted_grid (self w)). by destruct w as [[] ? ?]. Qed.

Lemma encrypting_trans w1 w2 w3 :
  encrypting w1 w2 → encrypting w2 w3 → encrypting w1 w3.
Proof.
  intros (g & Hs & _ & Hr) (g' & Hs' & ? & Hr').
  exists g'. rewrite Hs', Hs, Hr', Hr. done.
Qed.

Lemma encrypting_well_formed w w' :
  encrypting w w' → well_formed (self w) → well_formed (self w').
Proof. intros (g & -> & ? & _) Hwf. split; simpl; try apply Hwf. done. Qed.

Lemma encrypt_row r m : ∀ k w,
  r < GRID_SIZE → k + m = GRID_SIZE →
  well_formed (self w) →
  encrypted_upto (self w) r k →
  ∃ w',
    for_ (seq k m) (λ c,
      p ← get_self;
      val ← cell (plain_grid p) r c;
      ct ← encrypt_fresh val;
      p ← get_self;
      g ← set_cell (encrypted_grid p) r c (Some ct);
      put_self (with_encrypted_grid p g)) w = Ok tt w' ∧
    encrypting w w' ∧ encrypted_upto (self w') (S r) 0.
Proof.
  induction m as [|m IH]; intros k w Hr Hkm Hwf Hupto.
  - exists w. split; [done|]. split; [apply encrypting_refl, Hwf|].
    intros r' c' Hr' Hc' Hbefore. apply Hupto; [done..|lia].
  - assert (k < GRID_SIZE) as Hk by lia.
    destruct (at2_shape _ _ _ (wf_plain _ Hwf) Hr Hk) as [v Hv].
    destruct (at2_shape _ _ _ (wf_encrypted _ Hwf) Hr Hk) as [old Hold].
    pose proof (bits_at2 _ _ _ _ (wf_bits _ Hwf) Hv) as Hbit.
    pose proof (wf_capacity _ Hwf) as Hcap.
    set (ct := encrypt (public_key (self w)) (entropy w 0) v).
    set (w1 := mkWorld
                 (with_encrypted_grid (self w)
                    (upd2 (encrypted_grid (self w)) r k (Some ct)))
                 (random w) (λ n, entropy w (S n))).
    assert (encrypting w w1) as Hstep.
    { eexists. split; [done|]. split; [apply upd2_shape, Hwf | done]. }
    destruct (IH (S k) w1) as (w' & Hrun & Henc & Hdone); [done | lia | | |].
    + by eapply encrypting_well_formed.
    + intros r' c' Hr' Hc' Hbefore. unfold cell_consistent. simpl.
      destruct (decide ((r, k) = (r', c'))) as [[= <- <-]|Hne].
      * exists v, ct. rewrite at2_upd2_eq by eauto. repeat split; [done|].
        apply decrypt_encrypt; [apply Hwf | nia].
      * rewrite at2_upd2_ne by done. apply Hupto; [done..|].
        destruct Hbefore as [?|[-> ?]]; [by left | right].
        split; [done|]. destruct (decide (c' = k)) as [->|]; [done | lia].
    + exists w'.
      split; [|split; [exact (encrypting_trans _ _ _ Hstep Henc) | done]].
      cbn [for_ seq]. rewrite <- Hrun. mrun. done.
Qed.

Lemma encrypt_rows m : ∀ k w,
  k + m = GRID_SIZE →
  well_formed (self w) →
  encrypted_upto (self w) k 0 →
  ∃ w',
    for_ (seq k m) (λ r,
      for_ (seq 0 GRID_SIZE) (λ c,
        p ← get_self;
        val ← cell (plain_grid p) r c;
        ct ← encrypt_fresh val;
        p ← get_self;
        g ← set_cell (encrypted_grid p) r c (Some ct);
        put_self (with_encrypted_grid p g))) w = Ok tt w' ∧
    encrypting w w' ∧ encrypted_upto (self w') GRID_SIZE 0.
Proof.
  induction m as [|m IH]; intros k w Hkm Hwf Hupto.
  - exists w. split; [done|]. split; [apply encrypting_refl, Hwf|].
    by replace GRID_SIZE with k by lia.
  - destruct (encrypt_row k GRID_SIZE 0 w) as (w1 & Hrow & Henc1 & Hdone1);
      [lia | done | done | done |].
    destruct (IH (S k) w1) as (w' & Hrun & Henc & Hdone);
      [lia | by eapply encrypting_well_formed | done |].
    exists w'.
    split; [|split; [exact (encrypting_trans _ _ _ Henc1 Henc) | done]].
    cbn [for_ seq]. by rewrite bind_unfold, Hrow.
Qed.

Lemma encrypt_initial_board_spec w :
  well_formed (self w) →
  ∃ w', encrypt_initial_board w = Ok tt w' ∧ encrypting w w' ∧ I1 (self w').
Proof.
  intros Hwf.
  destruct (encrypt_rows GRID_SIZE 0 w) as (w' & Hrun & Henc & Hdone);
    [done | done | |].
  { intros r' c' _ _ [?|[_ ?]]; lia. }
  exists w'. unfold encrypt_initial_board. rewrite range_seq.
  split; [done|]. split; [done|].
  intros row col Hrow Hcol. apply Hdone; [done..|by left].
Qed.

Lemma consistent_intro p : well_formed p → I1 p → consistent p.
Proof. intros Hwf HI1. split; try apply Hwf. done. Qed.

(** ** The states of a board *)

Lemma blank_shape {A} (x : A) :
  grid_shape (replicate GRID_SIZE (replicate GRID_SIZE x)).
Proof.
  split; [apply length_replicate|].
  apply Forall_replicate, length_replicate.
Qed.

Lemma blank_count : count_ones (replicate GRID_SIZE (replicate GRID_SIZE 0%Z)) = 0.
Proof.
  generalize GRID_SIZE at 1. intros n. induction n as [|n IH]; [done|].
  cbn [replicate]. rewrite count_ones_cons, IH.
  unfold ones. generalize GRID_SIZE. intros k. induction k as [|k IHk]; [done|].
  cbn [replicate]. rewrite filter_cons. rewrite decide_False by done. lia.
Qed.

Lemma blank_bits : bits (replicate GRID_SIZE (replicate GRID_SIZE 0%Z)).
Proof. apply Forall_replicate, Forall_replicate. by left. Qed.

Lemma Player_init_spec nm pk sk fuel w0 w :
  keypair pk sk →
  (Z.of_nat (GRID_SIZE * GRID_SIZE) ≤ max_int pk)%Z →
  Player_init nm pk sk fuel w0 = Ok tt w →
  consistent (self w) ∧
  count_ones (plain_grid (self w)) = sum_list SHIP_SIZES ∧
  guess_board (self w) = replicate GRID_SIZE (replicate GRID_SIZE "."%char).
Proof.
  intros Hkeys Hcap Hrun. unfold Player_init in Hrun.
  apply bind_Ok_inv in Hrun as ([] & w1 & Hput & Hrun).
  apply bind_Ok_inv in Hrun as ([] & w2 & Hplace & Hrun).
  injection Hput as <-.
  destruct (place_all_Ok fuel SHIP_SIZES
              (mkWorld (blank nm pk sk) (random w0) (entropy w0)) w2
              (blank_shape 0%Z) blank_bits Hplace)
    as [(g & Hself & Hshape & Hbits & _) Hcount].
  cbn [self plain_grid blank] in Hcount, Hself. rewrite blank_count in Hcount.
  assert (well_formed (self w2)) as Hwf.
  { rewrite Hself. split; simpl; try done; apply blank_shape. }
  destruct (encrypt_initial_board_spec w2 Hwf) as (w3 & Hrun' & Henc & HI1).
  rewrite Hrun' in Hrun. injection Hrun as <-.
  split; [|split].
  - apply consistent_intro; [by eapply encrypting_well_formed | done].
  - destruct Henc as (g' & -> & _). simpl. rewrite Hcount. lia.
  - destruct Henc as (g' & -> & _). simpl. by rewrite Hself.
Qed.

Lemma reachable_consistent w : reachable w → consistent (self w).
Proof.
  induction 1 as [nm pk sk fuel w0 w Hkeys Hcap Hrun
                 | row col o w w' _ IH Hrun
                 | row col b w w' _ IH Hrun
                 | v w w' _ IH Hrun].
  - by destruct (Player_init_spec _ _ _ _ _ _ Hkeys Hcap Hrun).
  - by eapply process_attack_consistent.
  - by eapply receive_attack_consistent.
  - rewrite (check_health_consistent _ IH) in Hrun. by injection Hrun as _ <-.
Qed.

(** ** Marks on the guess board *)

(** Whatever the state, a call that returns has marked the attacked cell
    and no other. *)
Lemma receive_attack_guess row col w b w' :
  receive_attack row col w = Ok b w' →
  is_Some (at2 (guess_board (self w)) row col) ∧
  guess_board (self w') =
    upd2 (guess_board (self w)) row col (if b then "X" else "O")%char.
Proof.
  unfold receive_attack. intros Hrun.
  apply bind_Ok_inv in Hrun as (p & w1 & [= <- <-] & Hrun).
  apply bind_Ok_inv in Hrun as (v & w1 & [_ ->]%cell_Ok_inv & Hrun).
  apply bind_Ok_inv in Hrun as (g & w1 & (Hg & -> & ->)%set_cell_Ok_inv & Hrun).
  split; [done|].
  apply bind_Ok_inv in Hrun as ([] & w1 & [= <-] & Hrun).
  destruct (v =? 1)%Z; [|by injection Hrun as <- <-].
  apply bind_Ok_inv in Hrun as (m1 & w1 & [= <- <-] & Hrun).
  apply bind_Ok_inv in Hrun as (p & w1 & [= <- <-] & Hrun).
  apply bind_Ok_inv in Hrun as (old & w1 & [_ ->]%cell_Ok_inv & Hrun).
  apply bind_Ok_inv in Hrun as (new & w1 & Hadd & Hrun).
  assert (w1 = mkWorld (with_guess_board (self w)
                          (upd2 (guess_board (self w)) row col "X"%char))
                       (random w) (λ n, entropy w (S n))) as ->.
  { destruct old; [|done]. by injection Hadd as _ <-. }
  apply bind_Ok_inv in Hrun as (p & w1 & [= <- <-] & Hrun).
  apply bind_Ok_inv in Hrun as (g1 & w1 & (_ & -> & ->)%set_cell_Ok_inv & Hrun).
  apply bind_Ok_inv in Hrun as ([] & w1 & [= <-] & Hrun).
  apply bind_Ok_inv in Hrun as (p & w1 & [= <- <-] & Hrun).
  apply bind_Ok_inv in Hrun as (g2 & w1 & (_ & -> & ->)%set_cell_Ok_inv & Hrun).
  apply bind_Ok_inv in Hrun as ([] & w1 & [= <-] & Hrun).
  by injection Hrun as <- <-.
Qed.

Lemma process_attack_marks row col w o w' :
  process_attack row col w = Ok o w' → marked (self w') row col.
Proof.
  intros [(_ & -> & g & Hg & Hne)|(_ & b & Hrun & _)]%process_attack_inv.
  - by exists g.
  - apply receive_attack_guess in Hrun as [Hs Hg]. unfold marked.
    eexists. rewrite Hg, at2_upd2_eq by done. split; [done|]. by destruct b.
Qed.

Lemma process_attack_keeps_mark row col r c w o w' :
  process_attack r c w = Ok o w' →
  marked (self w) row col → marked (self w') row col.
Proof.
  intros Hrun Hm.
  destruct (decide ((r, c) = (row, col))) as [[= -> ->]|Hne].
  - by eapply process_attack_marks.
  - apply process_attack_inv in Hrun as [(_ & -> & _)|(_ & b & Hrun & _)]; [done|].
    apply receive_attack_guess in Hrun as [_ Hg].
    destruct Hm as (m & Hm & Hdot). exists m. by rewrite Hg, at2_upd2_ne.
Qed.

Lemma run_attacks_keep_mark row col attacks : ∀ w os w',
  run_attacks attacks w = Ok os w' →
  marked (self w) row col → marked (self w') row col.
Proof.
  induction attacks as [|[r c] attacks IH]; intros w os w' Hrun Hm.
  - by injection Hrun as _ <-.
  - cbn [run_attacks] in Hrun.
    apply bind_Ok_inv in Hrun as (o & w1 & Hone & Hrun).
    apply bind_Ok_inv in Hrun as (os' & w2 & Hrest & Hrun).
    injection Hrun as _ <-.
    eapply IH; [done|]. by eapply process_attack_keeps_mark.
Qed.

Lemma marks_sound_after_hit w row col ct :
  is_Some (at2 (plain_grid (self w)) row col) →
  marks_sound (self w) → marks_sound (self (after_hit w row col ct)).
Proof.
  intros Hs Hm r c. cbn [after_hit self plain_grid guess_board].
  destruct (decide ((row, col) = (r, c))) as [[= <- <-]|Hne].
  - by rewrite at2_upd2_eq.
  - rewrite !at2_upd2_ne by done. apply Hm.
Qed.

Lemma marks_sound_after_miss w row col v :
  at2 (plain_grid (self w)) row col = Some v → v ≠ 1%Z →
  marks_sound (self w) → marks_sound (self (after_miss w row col)).
Proof.
  intros Hv Hne Hm r c. cbn [after_miss self plain_grid guess_board with_guess_board].
  destruct (decide ((row, col) = (r, c))) as [[= <- <-]|Hother].
  - congruence.
  - rewrite at2_upd2_ne by done. apply Hm.
Qed.

Lemma receive_attack_marks_sound row col w b w' :
  consistent (self w) → receive_attack row col w = Ok b w' →
  marks_sound (self w) → marks_sound (self w').
Proof.
  intros Hc Hrun Hm.
  destruct (receive_attack_inv _ _ _ _ _ Hc Hrun)
    as [(_ & ct & Hp & He & ->)|(_ & v & Hp & Hv & ->)].
  - apply marks_sound_after_hit; eauto.
  - by eapply marks_sound_after_miss.
Qed.

Lemma process_attack_marks_sound row col w o w' :
  consistent (self w) → process_attack row col w = Ok o w' →
  marks_sound (self w) → marks_sound (self w').
Proof.
  intros Hc [(_ & -> & _)|(_ & b & Hrun & _)]%process_attack_inv Hm; [done|].
  by eapply receive_attack_marks_sound.
Qed.

Lemma reachable_marks_sound w : reachable w → marks_sound (self w).
Proof.
  induction 1 as [nm pk sk fuel w0 w Hkeys Hcap Hrun
                 | row col o w w' Hreach IH Hrun
                 | row col b w w' Hreach IH Hrun
                 | v w w' Hreach IH Hrun].
  - destruct (Player_init_spec _ _ _ _ _ _ Hkeys Hcap Hrun) as (Hc & _ & Hg).
    intros row col Hp. rewrite Hg.
    destruct (at2_lt _ _ _ _ (cons_plain _ Hc) Hp) as [Hrow Hcol].
    unfold at2. rewrite lookup_replicate_2 by done. simpl.
    by rewrite lookup_replicate_2.
  - eapply process_attack_marks_sound; [|done..]. by apply reachable_consistent.
  - eapply receive_attack_marks_sound; [|done..]. by apply reachable_consistent.
  - rewrite (check_health_consistent _ (reachable_consistent _ Hreach)) in Hrun.
    by injection Hrun as _ <-.
Qed.

(** ** Counting hits *)

Lemma hits_cons o os : hits (o :: os) = (if decide (o = Hit) then 1 else 0) + hits os.
Proof. unfold hits. rewrite filter_cons. by case_decide. Qed.

Lemma struck_cons_free g rc attacks :
  at2 g rc.1 rc.2 ≠ Some 1%Z → struck g (rc :: attacks) = struck g attacks.
Proof. intros Hne. unfold struck. by rewrite filter_cons_False. Qed.

Lemma struck_cons_occupied g row col attacks :
  at2 g row col = Some 1%Z →
  size (struck g ((row, col) :: attacks)) =
  S (size (struck (upd2 g row col 0%Z) attacks)).
Proof.
  intros Hocc.
  assert (struck (upd2 g row col 0%Z) attacks
          = struck g attacks ∖ {[(row, col)]}) as ->.
  { apply set_eq. intros [r c]. unfold struck.
    rewrite elem_of_difference, !elem_of_list_to_set, !list_elem_of_filter,
      elem_of_singleton. cbn [fst snd].
    destruct (decide ((row, col) = (r, c))) as [[= <- <-]|Hne].
    - rewrite at2_upd2_eq by eauto. intuition congruence.
    - rewrite at2_upd2_ne by done. intuition congruence. }
  assert (struck g ((row, col) :: attacks)
          = {[(row, col)]} ∪ struck g attacks ∖ {[(row, col)]}) as ->.
  { unfold struck at 1. rewrite filter_cons_True by done.
    rewrite list_to_set_cons. fold (struck g attacks).
    apply set_eq. intros x.
    rewrite !elem_of_union, elem_of_difference, elem_of_singleton.
    destruct (decide (x = (row, col))); intuition. }
  rewrite size_union; [by rewrite size_singleton|].
  apply elem_of_disjoint. by intros x Hx [_ Hnot]%elem_of_difference.
Qed.

Lemma run_attacks_hits attacks : ∀ w,
  consistent (self w) → marks_sound (self w) → Forall on_board attacks →
  ∃ os w',
    run_attacks attacks w = Ok os w' ∧
    consistent (self w') ∧ marks_sound (self w') ∧
    hits os = size (struck (plain_grid (self w)) attacks) ∧
    count_ones (plain_grid (self w')) + hits os =
      count_ones (plain_grid (self w)).
Proof.
  induction attacks as [|[r c] attacks IH]; intros w Hc Hm Hall.
  - exists [], w. split; [done|]. split; [done|]. split; [done|].
    unfold hits, struck. cbn [filter list_filter length list_to_set].
    rewrite size_empty. split; [done | lia].
  - apply Forall_cons in Hall as [[Hr Hcol] Hall]. cbn [fst snd] in Hr, Hcol.
    destruct (consistent_at _ _ _ Hc Hr Hcol) as (v & ct & Hp & He & _ & _ & [g Hg]).
    cbn [run_attacks]. rewrite bind_unfold.
    destruct (decide (v = 1%Z)) as [->|Hv].
    + (* a ship part: the cell is unmarked, the attack hits *)
      pose proof (Hm _ _ Hp) as Hdot.
      rewrite (process_attack_fresh _ _ _ Hdot).
      rewrite (receive_attack_hit _ _ _ _ Hp He) by eauto.
      destruct (IH (after_hit w r c ct)) as (os & w' & Hrun & Hc' & Hm' & Hhits & Hcount);
        [by apply consistent_after_hit | apply marks_sound_after_hit; eauto | done |].
      exists (Hit :: os), w'. rewrite bind_unfold, Hrun.
      split; [done|]. split; [done|]. split; [done|].
      rewrite hits_cons, decide_True by done.
      cbn [after_hit self plain_grid] in Hcount, Hhits.
      rewrite (struck_cons_occupied _ _ _ _ Hp). split; [lia|].
      pose proof (count_ones_upd2 _ _ _ 0%Z _ Hp) as Hupd.
      unfold bit_value in Hupd. rewrite decide_True, decide_False in Hupd by done.
      lia.
    + (* water: a miss, or a repeated attack *)
      assert (struck (plain_grid (self w)) ((r, c) :: attacks)
              = struck (plain_grid (self w)) attacks) as Hstruck.
      { apply struck_cons_free. cbn [fst snd]. congruence. }
      destruct (decide (g = "."%char)) as [->|Hne].
      * rewrite (process_attack_fresh _ _ _ Hg).
        rewrite (receive_attack_miss _ _ _ _ Hp Hv) by eauto.
        destruct (IH (after_miss w r c)) as (os & w' & Hrun & Hc' & Hm' & Hhits & Hcount);
          [by apply consistent_after_miss | by eapply marks_sound_after_miss | done |].
        exists (Miss :: os), w'. rewrite bind_unfold, Hrun.
        split; [done|]. split; [done|]. split; [done|].
        rewrite hits_cons, decide_False, Hstruck by done. done.
      * rewrite (process_attack_repeat _ _ _ _ Hg Hne).
        destruct (IH w) as (os & w' & Hrun & Hc' & Hm' & Hhits & Hcount); [done..|].
        exists (AlreadyAttacked :: os), w'. rewrite bind_unfold, Hrun.
        split; [done|]. split; [done|]. split; [done|].
        rewrite hits_cons, decide_False, Hstruck by done. done.
Qed.

(** ** The health check only reads the board *)

Lemma for_acc_frame {A S} (l : list A) (body : S → A → M S) :
  (∀ s x w s' w', body s x w = Ok s' w' → w' = w) →
  ∀ s w s' w', for_acc l body s w = Ok s' w' → w' = w.
Proof.
  intros Hbody. induction l as [|x l IH]; intros s w s' w' Hrun.
  - by injection Hrun as _ <-.
  - cbn [for_acc] in Hrun.
    apply bind_Ok_inv in Hrun as (s1 & w1 & Hone & Hrun).
    apply Hbody in Hone as ->. by eapply IH.
Qed.

Lemma check_health_frame w v w' :
  check_health_homomorphically w = Ok v w' → w' = after_health w.
Proof.
  unfold check_health_homomorphically. intros Hrun.
  apply bind_Ok_inv in Hrun as (total & w1 & [= <- <-] & Hrun).
  apply bind_Ok_inv in Hrun as (total & w1 & Hloop & Hrun).
  assert (w1 = after_health w) as ->.
  { eapply for_acc_frame in Hloop; [done|].
    intros s r w2 s2 w3. apply for_acc_frame.
    intros s3 c w4 s4 w5 Hbody.
    apply bind_Ok_inv in Hbody as (p & w6 & [= <- <-] & Hbody).
    apply bind_Ok_inv in Hbody as (ct & w6 & [_ ->]%cell_Ok_inv & Hbody).
    destruct ct; [by injection Hbody as _ <- | done]. }
  unfold decrypt_own in Hrun.
  apply bind_Ok_inv in Hrun as (p & w1 & [= <- <-] & Hrun).
  destruct (decrypt _ _); [by injection Hrun as _ <- | done].
Qed.

(** ** The properties of the specification *)

(** C1 (invariant I1).  In every state a board goes through, that is
    after [__init__] has encrypted the whole grid and after every
    later attack, decrypting [encrypted_grid[row][col]] with the board's
    private key gives [plain_grid[row][col]], for every cell of the
    board. *)
Theorem I1_invariant w row col :
  reachable w → row < GRID_SIZE → col < GRID_SIZE →
  ∃ v ct,
    at2 (plain_grid (self w)) row col = Some v ∧
    at2 (encrypted_grid (self w)) row col = Some (Some ct) ∧
    decrypt (private_key (self w)) ct = Some v.
Proof.
  intros Hreach Hrow Hcol.
  exact (cons_I1 _ (reachable_consistent _ Hreach) row col Hrow Hcol).
Qed.

(** C2 (aggregate correctness).  In every state a board goes through,
    whatever hits and misses were applied, the health check returns the
    number of cells of [plain_grid] equal to 1: the homomorphic sum of
    all the cells, started from an encryption of 0 and decrypted with the
    board's private key. *)
Theorem health_counts_ones w :
  reachable w →
  check_health_homomorphically w =
    Ok (Z.of_nat (count_ones (plain_grid (self w)))) (after_health w).
Proof. intros Hreach. apply check_health_consistent, reachable_consistent, Hreach. Qed.

(** C3 (homomorphic decrement).  On a cell holding 1, [receive_attack]
    reports a hit, sets the plaintext cell to 0 and replaces the
    ciphertext by the homomorphic sum of the old ciphertext and a fresh
    encryption of -1, which decrypts to 0.  The run is the same whatever
    private key the player object holds: the cell is not decrypted. *)
Theorem hit_decrements_cell row col w :
  reachable w →
  at2 (plain_grid (self w)) row col = Some 1%Z →
  ∃ ct,
    at2 (encrypted_grid (self w)) row col = Some (Some ct) ∧
    let minus_one := encrypt (public_key (self w)) (entropy w 0) (-1) in
    let w' := after_hit w row col ct in
    receive_attack row col w = Ok true w' ∧
    at2 (plain_grid (self w')) row col = Some 0%Z ∧
    at2 (encrypted_grid (self w')) row col = Some (Some (add ct minus_one)) ∧
    decrypt (private_key (self w')) (add ct minus_one) = Some 0%Z ∧
    ∀ sk, receive_attack row col (with_private_key w sk) =
          Ok true (with_private_key w' sk).
Proof.
  intros Hreach Hp.
  pose proof (reachable_consistent _ Hreach) as Hc.
  destruct (at2_lt _ _ _ _ (cons_plain _ Hc) Hp) as [Hrow Hcol].
  destruct (consistent_at _ _ _ Hc Hrow Hcol) as (v & ct & Hp' & He & Hd & _ & Hg).
  assert (v = 1%Z) as -> by congruence.
  pose proof (capacity_one _ _ Hc Hrow) as Hcap.
  exists ct. split; [done|]. cbn zeta.
  split; [by apply receive_attack_hit|].
  cbn [after_hit self plain_grid encrypted_grid private_key].
  rewrite !at2_upd2_eq by eauto.
  split; [done|]. split; [done|]. split.
  - change 0%Z with (1 + -1)%Z.
    eapply decrypt_add; [apply Hc | done | | lia].
    apply decrypt_encrypt; [apply Hc | lia].
  - intros sk. by apply (receive_attack_hit row col (with_private_key w sk) ct).
Qed.

(** C4 (repeated attack).  An attack resolved on a coordinate whose mark
    is not unknown answers [AlreadyAttacked] and returns the state it was
    given.  Once an attack on a coordinate has been resolved, whatever
    other attacks follow, every later attack on that coordinate answers
    [AlreadyAttacked] and leaves the three grids as they were. *)
Theorem repeated_attack_wasted row col w o w1 others os w2 :
  process_attack row col w = Ok o w1 →
  run_attacks others w1 = Ok os w2 →
  (marked (self w) row col → o = AlreadyAttacked ∧ w1 = w) ∧
  (o = Hit ∨ o = Miss → at2 (guess_board (self w)) row col = Some "."%char) ∧
  process_attack row col w2 = Ok AlreadyAttacked w2.
Proof.
  intros Hfirst Hothers. split; [|split].
  - intros (m & Hm & Hdot).
    rewrite (process_attack_repeat _ _ _ _ Hm Hdot) in Hfirst.
    by injection Hfirst as <- <-.
  - apply process_attack_inv in Hfirst as [(-> & _)|(Hg & _)]; [|done].
    by intros [|].
  - apply process_attack_marks in Hfirst.
    destruct (run_attacks_keep_mark _ _ _ _ _ _ Hothers Hfirst) as (m & Hm & Hdot).
    by eapply process_attack_repeat.
Qed.

(** C5 (termination).  On a board holding [k] ship parts, a run of
    attacks makes as many hits as it touches distinct occupied cells, and
    the health check afterwards returns [k] minus that number: it is 0
    when the run makes [k] hits and is not 0 when it makes fewer. *)
Theorem health_zero_after_all_hits w k attacks :
  reachable w →
  count_ones (plain_grid (self w)) = k →
  Forall on_board attacks →
  ∃ os w' v,
    run_attacks attacks w = Ok os w' ∧
    check_health_homomorphically w' = Ok v (after_health w') ∧
    hits os = size (struck (plain_grid (self w)) attacks) ∧
    v = Z.of_nat (k - hits os) ∧
    (hits os = k → v = 0%Z) ∧
    (hits os < k → v ≠ 0%Z).
Proof.
  intros Hreach Hk Hall.
  destruct (run_attacks_hits attacks w) as (os & w' & Hrun & Hc' & _ & Hhits & Hcount);
    [by apply reachable_consistent | by apply reachable_marks_sound | done |].
  exists os, w', (Z.of_nat (count_ones (plain_grid (self w')))).
  split; [done|]. split; [by apply check_health_consistent|].
  split; [done|]. split; [f_equal; lia|]. split; intros ?; lia.
Qed.

Lemma Player_init_no_raise nm pk sk fuel w0 e :
  1 ≤ GRID_SIZE → keypair pk sk →
  (Z.of_nat (GRID_SIZE * GRID_SIZE) ≤ max_int pk)%Z →
  Player_init nm pk sk fuel w0 ≠ Raise e.
Proof.
  intros Hg Hkeys Hcap. unfold Player_init.
  rewrite bind_unfold. cbn [put_self]. rewrite bind_unfold.
  set (w1 := mkWorld (blank nm pk sk) (random w0) (entropy w0)).
  destruct (place_ships fuel w1) as [[] w2|e'|] eqn:Hplace; [| |done].
  - destruct (place_all_Ok fuel SHIP_SIZES w1 w2 (blank_shape 0%Z) blank_bits Hplace)
      as [(g & Hself & Hshape & Hbits & _) _].
    assert (well_formed (self w2)) as Hwf.
    { rewrite Hself. split; simpl; try done; apply blank_shape. }
    by destruct (encrypt_initial_board_spec w2 Hwf) as (w3 & -> & _).
  - by apply (place_all_no_raise fuel SHIP_SIZES e' w1 Hg (blank_shape 0%Z)) in Hplace;
      [|apply blank_bits].
Qed.

Lemma Player_init_too_long nm pk sk fuel w0 size :
  1 ≤ GRID_SIZE → keypair pk sk →
  (Z.of_nat (GRID_SIZE * GRID_SIZE) ≤ max_int pk)%Z →
  size ∈ SHIP_SIZES → GRID_SIZE < size →
  Player_init nm pk sk fuel w0 = Diverge.
Proof.
  intros Hg Hkeys Hcap Hin Hsize.
  destruct (Player_init nm pk sk fuel w0) as [[] w|e|] eqn:Hrun; [| |done].
  - unfold Player_init in Hrun.
    apply bind_Ok_inv in Hrun as ([] & w1 & _ & Hrun).
    apply bind_Ok_inv in Hrun as ([] & w2 & Hplace & _).
    by eapply place_all_too_long in Hplace.
  - by eapply Player_init_no_raise in Hrun.
Qed.

(** C6 (placement validity).  Every placement the validity check accepts
    covers cells that all lie on the board and all hold no ship part, and
    [set_ship] then writes exactly those cells; so when [place_ships] has
    placed every ship on the empty grid, the number of cells equal to 1
    is the sum of the configured ship sizes. *)
Theorem placement_valid nm pk sk fuel w w' :
  self w = blank nm pk sk →
  place_ships fuel w = Ok tt w' →
  count_ones (plain_grid (self w')) = sum_list SHIP_SIZES ∧
  grid_shape (plain_grid (self w')) ∧
  ∀ row col size o wa wb,
    grid_shape (plain_grid (self wa)) →
    is_valid_placement row col size o wa = Ok true wb →
    wb = wa ∧
    Forall (λ rc, on_board rc ∧
                  ∃ v, at2 (plain_grid (self wa)) rc.1 rc.2 = Some v ∧ v ≠ 1%Z)
           (ship_cells row col size o) ∧
    ∃ wc, set_ship row col size o wb = Ok tt wc ∧
          plain_grid (self wc) =
            fill (plain_grid (self wa)) (ship_cells row col size o).
Proof.
  intros Hblank Hplace.
  destruct (place_all_Ok fuel SHIP_SIZES w w') as [Hpl Hcount]; [| |done|].
  { rewrite Hblank. apply blank_shape. }
  { rewrite Hblank. apply blank_bits. }
  rewrite Hblank in Hcount. cbn [blank plain_grid] in Hcount.
  rewrite blank_count in Hcount.
  split; [done|]. split; [by destruct (placing_plain _ _ Hpl)|].
  intros row col size o wa wb Hshape Hvalid.
  pose proof (is_valid_placement_frame _ _ _ _ _ _ _ Hvalid) as ->.
  pose proof (accepted_cells _ _ _ _ _ Hshape Hvalid) as Hcells.
  split; [done|]. split.
  - eapply Forall_impl; [exact Hcells|]. intros rc (? & ? & ?). by split.
  - eexists. split; [apply set_ship_eq | done].
    eapply Forall_impl; [exact Hcells|]. intros rc (_ & _ & v & Hv & _). eauto.
Qed.

Lemma attempts_elem row col o :
  In (row, col, o) attempts ↔
  row < GRID_SIZE ∧ col < GRID_SIZE ∧ (o = "H"%char ∨ o = "V"%char).
Proof.
  unfold attempts. rewrite !in_prod_iff, !in_seq. cbn [In]. split.
  - intros [[Hrow Hcol] [<-|[<-|[]]]]; repeat split; try lia; auto.
  - intros (Hrow & Hcol & [->| ->]); repeat split; try lia; auto.
Qed.

Lemma accepts_valid row col size o w :
  is_valid_placement row col size o w = Ok true w ↔
  accepts (plain_grid (self w)) row col size o = true.
Proof.
  rewrite is_valid_placement_eq. unfold accepts.
  destruct (GRID_SIZE <? _); [done|].
  by destruct (blocked _ _) as [[]|].
Qed.

Lemma accepts_set_ship row col size o w :
  accepts (plain_grid (self w)) row col size o = true →
  set_ship row col size o w =
  Ok tt (mkWorld (with_plain_grid (self w)
                    (fill (plain_grid (self w)) (ship_cells row col size o)))
                 (random w) (entropy w)).
Proof.
  unfold accepts. destruct (GRID_SIZE <? _); [done|].
  destruct (blocked _ _) as [[]|] eqn:Hb; [done | | done].
  intros _. apply set_ship_eq. apply blocked_free in Hb.
  eapply Forall_impl; [exact Hb|]. intros rc (v & Hv & _). eauto.
Qed.

(** The run a returning [place_ship] wrote is one the check accepted. *)
Lemma place_ship_accepted fuel size : ∀ w w',
  place_ship fuel size w = Ok tt w' →
  ∃ a, In a attempts ∧
       accepts (plain_grid (self w)) a.1.1 a.1.2 size a.2 = true ∧
       plain_grid (self w') =
         fill (plain_grid (self w)) (ship_cells a.1.1 a.1.2 size a.2).
Proof.
  induction fuel as [|fuel IH]; intros w w' Hrun; [done|].
  destruct (decide (GRID_SIZE = 0)) as [Hz|Hnz].
  { by rewrite place_ship_empty in Hrun. }
  rewrite place_ship_step in Hrun by lia.
  destruct (is_valid_placement _ _ _ _ _) as [b w1| |] eqn:Hvalid; [|done..].
  pose proof (is_valid_placement_frame _ _ _ _ _ _ _ Hvalid) as ->.
  destruct b; [|by apply (IH (after_draws w))].
  apply accepts_valid in Hvalid.
  rewrite (accepts_set_ship _ _ _ _ _ Hvalid) in Hrun. injection Hrun as <-.
  exists (drawn_row w, drawn_col w, drawn_orientation w).
  split; [|by split].
  apply attempts_elem. repeat split.
  - apply Nat.mod_upper_bound. lia.
  - apply Nat.mod_upper_bound. lia.
  - unfold drawn_orientation. destruct (_ =? 0); auto.
Qed.

(** When [place_ships] returns, the ships could be placed. *)
Lemma place_all_placed fuel sizes : ∀ w w',
  grid_shape (plain_grid (self w)) → bits (plain_grid (self w)) →
  for_ sizes (place_ship fuel) w = Ok tt w' →
  can_place sizes (plain_grid (self w)) = true.
Proof.
  induction sizes as [|size sizes IH]; intros w w' Hshape Hbits Hrun; [done|].
  cbn [for_] in Hrun. apply bind_Ok_inv in Hrun as ([] & w1 & Hone & Hrest).
  destruct (place_ship_Ok _ _ _ _ Hshape Hbits Hone) as [Hpl _].
  destruct (placing_plain _ _ Hpl) as [Hshape1 Hbits1].
  destruct (place_ship_accepted _ _ _ _ Hone) as (a & Hin & Hacc & Hfill).
  cbn [can_place]. apply existsb_exists. exists a. split; [done|].
  rewrite Hacc, <- Hfill. apply (IH _ _ Hshape1 Hbits1 Hrest).
Qed.

(** When the ships can be placed, some draws make [place_ships] return,
    each ship placed at its first attempt. *)
Lemma can_place_draws sizes : ∀ g,
  can_place sizes g = true →
  ∃ rnd, ∀ p ent, plain_grid p = g →
    ∃ w', for_ sizes (place_ship 1) (mkWorld p rnd ent) = Ok tt w'.
Proof.
  induction sizes as [|size sizes IH]; intros g Hcan.
  { exists (λ _, 0). intros p ent _. by eexists. }
  cbn [can_place] in Hcan.
  apply existsb_exists in Hcan as ([[row col] o] & Hin & Hcan).
  apply andb_true_iff in Hcan as [Hacc Hrest]. cbn [fst snd] in Hacc, Hrest.
  apply attempts_elem in Hin as (Hrow & Hcol & Ho).
  destruct (IH _ Hrest) as [rnd Hrnd].
  exists (drawing (row, col, o) rnd). intros p ent Hp.
  set (w := mkWorld p (drawing (row, col, o) rnd) ent).
  assert (drawn_orientation w = o) as Hdo.
  { unfold drawn_orientation. cbn. by destruct Ho as [-> | ->]. }
  assert (drawn_row w = row) as Hdr.
  { unfold drawn_row. cbn. by apply Nat.mod_small. }
  assert (drawn_col w = col) as Hdc.
  { unfold drawn_col. cbn. by apply Nat.mod_small. }
  assert (after_draws w = mkWorld p rnd ent) as Hafter by done.
  destruct (Hrnd (with_plain_grid p (fill g (ship_cells row col size o))) ent)
    as [w' Hw']; [done|].
  exists w'. cbn [for_]. rewrite bind_unfold, place_ship_step by lia.
  rewrite Hdo, Hdr, Hdc, Hafter.
  assert (accepts (plain_grid (self (mkWorld p rnd ent))) row col size o = true)
    as Hacc' by (cbn [self]; by rewrite Hp).
  rewrite (proj2 (accepts_valid _ _ _ _ _) Hacc').
  rewrite (accepts_set_ship _ _ _ _ _ Hacc'). cbn [self random entropy].
  by rewrite Hp.
Qed.

Lemma Player_init_placed nm pk sk fuel w0 w :
  Player_init nm pk sk fuel w0 = Ok tt w →
  can_place SHIP_SIZES (plain_grid (blank nm pk sk)) = true.
Proof.
  intros Hrun. unfold Player_init in Hrun.
  apply bind_Ok_inv in Hrun as ([] & w1 & Hput & Hrun).
  apply bind_Ok_inv in Hrun as ([] & w2 & Hplace & _).
  injection Hput as <-.
  apply (place_all_placed fuel SHIP_SIZES
           (mkWorld (blank nm pk sk) (random w0) (entropy w0)) w2
           (blank_shape 0%Z) blank_bits Hplace).
Qed.

Lemma can_place_init nm pk sk w0 :
  keypair pk sk →
  (Z.of_nat (GRID_SIZE * GRID_SIZE) ≤ max_int pk)%Z →
  can_place SHIP_SIZES (plain_grid (blank nm pk sk)) = true →
  ∃ rnd w,
    Player_init nm pk sk 1 (mkWorld (self w0) rnd (entropy w0)) = Ok tt w.
Proof.
  intros Hkeys Hcap Hcan.
  destruct (can_place_draws _ _ Hcan) as [rnd Hrnd].
  destruct (Hrnd (blank nm pk sk) (entropy w0)) as [w2 Hplace]; [done|].
  destruct (place_all_Ok 1 SHIP_SIZES
              (mkWorld (blank nm pk sk) rnd (entropy w0)) w2
              (blank_shape 0%Z) blank_bits Hplace)
    as [(g & Hself & Hshape & Hbits & _) _].
  assert (well_formed (self w2)) as Hwf.
  { rewrite Hself. split; simpl; try done; apply blank_shape. }
  destruct (encrypt_initial_board_spec w2 Hwf) as (w3 & Henc & _).
  exists rnd, w3. unfold Player_init.
  rewrite bind_unfold. cbn [put_self]. rewrite bind_unfold.
  cbn [self random entropy]. unfold place_ships. by rewrite Hplace.
Qed.

(** C7, as the code has it.  [__init__] makes no check that the ships
    fit and has no way to fail on a misfit.  On a board of side at least
    1, with a matching key pair whose plaintext range holds the board,
    initialisation never raises, whatever the ship sizes, the draws and
    the number of attempts followed.  When the configured ships cannot
    possibly fit, that is when no sequence of draws gives every ship a
    run the placement check accepts, the search rejects every draw and
    [__init__] is still searching however many attempts are followed;
    when they can fit, some draws let it return.  A ship longer than the
    side, or sizes that sum to more than the area, are such misfits. *)
Theorem initialization_no_fit_check nm pk sk fuel w0 :
  1 ≤ GRID_SIZE → keypair pk sk →
  (Z.of_nat (GRID_SIZE * GRID_SIZE) ≤ max_int pk)%Z →
  (∀ e, Player_init nm pk sk fuel w0 ≠ Raise e) ∧
  (can_place SHIP_SIZES (plain_grid (blank nm pk sk)) = false →
   Player_init nm pk sk fuel w0 = Diverge) ∧
  (can_place SHIP_SIZES (plain_grid (blank nm pk sk)) = true →
   ∃ rnd w,
     Player_init nm pk sk 1 (mkWorld (self w0) rnd (entropy w0)) = Ok tt w) ∧
  ((∃ size, size ∈ SHIP_SIZES ∧ GRID_SIZE < size) ∨
   GRID_SIZE * GRID_SIZE < sum_list SHIP_SIZES →
   can_place SHIP_SIZES (plain_grid (blank nm pk sk)) = false).
Proof.
  intros Hg Hkeys Hcap. split; [|split; [|split]].
  - intros e. by apply Player_init_no_raise.
  - intros Hcan.
    destruct (Player_init nm pk sk fuel w0) as [[] w|e|] eqn:Hrun; [| |done].
    + apply Player_init_placed in Hrun. congruence.
    + by eapply Player_init_no_raise in Hrun.
  - by apply can_place_init.
  - intros Hmisfit.
    destruct (can_place SHIP_SIZES (plain_grid (blank nm pk sk))) eqn:Hcan; [|done].
    destruct (can_place_init nm pk sk w0 Hkeys Hcap Hcan) as (rnd & w & Hrun).
    destruct Hmisfit as [(size & Hin & Hsize)|Harea].
    + by rewrite (Player_init_too_long nm pk sk 1 _ size Hg Hkeys Hcap Hin Hsize)
        in Hrun.
    + destruct (Player_init_spec _ _ _ _ _ _ Hkeys Hcap Hrun) as (Hc & Hcount & _).
      pose proof (count_ones_le _ (cons_plain _ Hc)). lia.
Qed.

(** C8 (frame of an attack).  An attack resolved on a coordinate not yet
    attacked is a hit or a miss and marks the attacked cell of the guess
    board in both cases, leaving every other mark alone.  On a miss
    [plain_grid] and [encrypted_grid] are unchanged; on a hit both change,
    at the attacked cell only.  The key pair is never touched. *)
Theorem fresh_attack_frame row col w :
  reachable w →
  at2 (guess_board (self w)) row col = Some "."%char →
  ∃ o w',
    process_attack row col w = Ok o w' ∧
    (o = Hit ∨ o = Miss) ∧
    guess_board (self w') =
      upd2 (guess_board (self w)) row col
           (if decide (o = Hit) then "X" else "O")%char ∧
    at2 (guess_board (self w')) row col ≠ Some "."%char ∧
    (o = Miss →
       plain_grid (self w') = plain_grid (self w) ∧
       encrypted_grid (self w') = encrypted_grid (self w)) ∧
    (o = Hit →
       at2 (plain_grid (self w)) row col = Some 1%Z ∧
       plain_grid (self w') = upd2 (plain_grid (self w)) row col 0%Z ∧
       ∃ ct, at2 (encrypted_grid (self w)) row col = Some (Some ct) ∧
             encrypted_grid (self w') =
               upd2 (encrypted_grid (self w)) row col
                 (Some (add ct (encrypt (public_key (self w)) (entropy w 0) (-1))))) ∧
    public_key (self w') = public_key (self w) ∧
    private_key (self w') = private_key (self w).
Proof.
  intros Hreach Hg.
  pose proof (reachable_consistent _ Hreach) as Hc.
  destruct (at2_lt _ _ _ _ (cons_guess _ Hc) Hg) as [Hrow Hcol].
  destruct (consistent_at _ _ _ Hc Hrow Hcol) as (v & ct & Hp & He & _ & _ & Hs).
  rewrite (process_attack_fresh _ _ _ Hg).
  destruct (decide (v = 1%Z)) as [->|Hv].
  - rewrite (receive_attack_hit _ _ _ _ Hp He Hs).
    exists Hit, (after_hit w row col ct).
    cbn [after_hit self plain_grid encrypted_grid guess_board public_key private_key].
    rewrite at2_upd2_eq by done.
    repeat split; try done; eauto.
  - rewrite (receive_attack_miss _ _ _ _ Hp Hv Hs).
    exists Miss, (after_miss w row col).
    cbn [after_miss with_guess_board self plain_grid encrypted_grid guess_board
         public_key private_key].
    rewrite at2_upd2_eq by done.
    repeat split; try done; eauto.
Qed.

(** C9 ([receive_attack] has no guard of its own).  Called directly a
    second time on a cell it has just hit, [receive_attack] finds the
    plaintext 0, reports a miss and overwrites the mark ["X"] with ["O"],
    the two other grids staying as the hit left them.  The step of [main]
    in the same state answers [AlreadyAttacked] and changes nothing: the
    guard is the caller's. *)
Theorem receive_attack_unguarded row col w :
  reachable w →
  at2 (plain_grid (self w)) row col = Some 1%Z →
  ∃ w1 w2,
    receive_attack row col w = Ok true w1 ∧
    at2 (plain_grid (self w1)) row col = Some 0%Z ∧
    at2 (guess_board (self w1)) row col = Some "X"%char ∧
    receive_attack row col w1 = Ok false w2 ∧
    at2 (guess_board (self w2)) row col = Some "O"%char ∧
    plain_grid (self w2) = plain_grid (self w1) ∧
    encrypted_grid (self w2) = encrypted_grid (self w1) ∧
    process_attack row col w1 = Ok AlreadyAttacked w1.
Proof.
  intros Hreach Hp.
  pose proof (reachable_consistent _ Hreach) as Hc.
  destruct (at2_lt _ _ _ _ (cons_plain _ Hc) Hp) as [Hrow Hcol].
  destruct (consistent_at _ _ _ Hc Hrow Hcol) as (v & ct & _ & He & _ & _ & Hs).
  exists (after_hit w row col ct), (after_miss (after_hit w row col ct) row col).
  assert (at2 (plain_grid (self (after_hit w row col ct))) row col = Some 0%Z) as Hp1.
  { cbn [after_hit self plain_grid]. apply at2_upd2_eq. eauto. }
  assert (at2 (guess_board (self (after_hit w row col ct))) row col = Some "X"%char) as Hg1.
  { cbn [after_hit self guess_board]. by apply at2_upd2_eq. }
  split; [by apply receive_attack_hit|]. split; [done|]. split; [done|].
  split; [eapply receive_attack_miss; eauto; done|].
  split; [cbn [after_miss with_guess_board self guess_board];
          apply at2_upd2_eq; eauto|].
  split; [done|]. split; [done|].
  by eapply process_attack_repeat.
Qed.

(** C10 (the health check is read-only).  A health check that returns
    leaves the player object as it was: the three grids and the key pair
    are unchanged, and the only effect on the state is the randomness used
    by the encryption of 0. *)
Theorem health_check_read_only w v w' :
  check_health_homomorphically w = Ok v w' →
  self w' = self w ∧
  plain_grid (self w') = plain_grid (self w) ∧
  encrypted_grid (self w') = encrypted_grid (self w) ∧
  guess_board (self w') = guess_board (self w) ∧
  public_key (self w') = public_key (self w) ∧
  private_key (self w') = private_key (self w) ∧
  random w' = random w.
Proof. intros ->%check_health_frame. done. Qed.


End Facts.

(** * Further properties of the program *)

Section BoardFacts.
Context {P : Paillier} {L : PaillierLaws P} {cfg : Config}.

(** ** What [__init__] returns *)

Lemma placing_fields w w' :
  placing w w' →
  name (self w') = name (self w) ∧
  public_key (self w') = public_key (self w) ∧
  private_key (self w') = private_key (self w) ∧
  encrypted_grid (self w') = encrypted_grid (self w) ∧
  guess_board (self w') = guess_board (self w).
Proof. by intros (g & -> & _). Qed.

Lemma encrypting_fields w w' :
  encrypting w w' →
  name (self w') = name (self w) ∧
  public_key (self w') = public_key (self w) ∧
  private_key (self w') = private_key (self w) ∧
  plain_grid (self w') = plain_grid (self w) ∧
  guess_board (self w') = guess_board (self w).
Proof. by intros (g & -> & _). Qed.

Lemma Player_init_fields nm pk sk fuel w0 w :
  keypair pk sk →
  (Z.of_nat (GRID_SIZE * GRID_SIZE) ≤ max_int pk)%Z →
  Player_init nm pk sk fuel w0 = Ok tt w →
  name (self w) = nm ∧ public_key (self w) = pk ∧ private_key (self w) = sk.
Proof.
  intros Hkeys Hcap Hrun. unfold Player_init in Hrun.
  apply bind_Ok_inv in Hrun as ([] & w1 & Hput & Hrun).
  apply bind_Ok_inv in Hrun as ([] & w2 & Hplace & Hrun).
  injection Hput as <-.
  destruct (place_all_Ok fuel SHIP_SIZES
              (mkWorld (blank nm pk sk) (random w0) (entropy w0)) w2
              (blank_shape 0%Z) blank_bits Hplace) as [Hpl _].
  pose proof (placing_fields _ _ Hpl) as (Hn & Hpk & Hsk & He & Hg).
  assert (well_formed (self w2)) as Hwf.
  { destruct Hpl as (g & -> & ? & ? & _).
    split; simpl; try done; apply blank_shape. }
  destruct (encrypt_initial_board_spec w2 Hwf) as (w3 & Hrun' & Henc & _).
  rewrite Hrun' in Hrun. injection Hrun as <-.
  pose proof (encrypting_fields _ _ Henc) as (Hn' & Hpk' & Hsk' & _).
  rewrite Hn', Hpk', Hsk', Hn, Hpk, Hsk. done.
Qed.

(** X1.  A board that [__init__] returns carries the name and the key
    pair it was given, shows an all-unknown guess board, and its first
    health check returns the sum of the configured ship sizes. *)
Theorem init_board nm pk sk fuel w0 w :
  keypair pk sk →
  (Z.of_nat (GRID_SIZE * GRID_SIZE) ≤ max_int pk)%Z →
  Player_init nm pk sk fuel w0 = Ok tt w →
  name (self w) = nm ∧
  public_key (self w) = pk ∧ private_key (self w) = sk ∧
  (∀ row col, row < GRID_SIZE → col < GRID_SIZE →
     at2 (guess_board (self w)) row col = Some "."%char) ∧
  check_health_homomorphically w =
    Ok (Z.of_nat (sum_list SHIP_SIZES)) (after_health w).
Proof.
  intros Hkeys Hcap Hrun.
  destruct (Player_init_fields _ _ _ _ _ _ Hkeys Hcap Hrun) as (Hn & Hpk & Hsk).
  destruct (Player_init_spec _ _ _ _ _ _ Hkeys Hcap Hrun) as (Hc & Hcount & Hg).
  split; [done|]. split; [done|]. split; [done|]. split.
  - intros row col Hrow Hcol. rewrite Hg. unfold at2.
    rewrite lookup_replicate_2 by done. simpl. by rewrite lookup_replicate_2.
  - rewrite (check_health_consistent _ Hc). by rewrite Hcount.
Qed.

(** ** Attacks off the board *)

Lemma at2_off_board {A} (g : list (list A)) row col :
  grid_shape g → ¬ (row < GRID_SIZE ∧ col < GRID_SIZE) → at2 g row col = None.
Proof.
  intros Hshape Hoff. destruct (at2 g row col) as [v|] eqn:Hv; [|done].
  destruct Hoff. by eapply at2_lt.
Qed.

(** X2.  On a board of the game, an attack at a coordinate outside the
    grid raises [IndexError], from [receive_attack] as from the guarded
    step of [main]: neither answers a miss. *)
Theorem attack_off_board row col w :
  reachable w →
  ¬ (row < GRID_SIZE ∧ col < GRID_SIZE) →
  receive_attack row col w = Raise IndexError ∧
  process_attack row col w = Raise IndexError.
Proof.
  intros Hc%reachable_consistent Hoff. split.
  - unfold receive_attack. rewrite bind_unfold. cbn [get_self].
    rewrite bind_unfold, cell_None; [done|].
    apply at2_off_board; [apply Hc | done].
  - unfold process_attack. rewrite bind_unfold. cbn [get_self].
    rewrite bind_unfold, cell_None; [done|].
    apply at2_off_board; [apply Hc | done].
Qed.

(** ** The validity check *)

(** X3.  On a well-shaped grid and for an anchor on the board,
    [is_valid_placement] changes nothing and answers [True] exactly when
    every cell of the ship's run lies on the board and holds no ship
    part. *)
Theorem is_valid_placement_iff row col size o w :
  grid_shape (plain_grid (self w)) →
  row < GRID_SIZE → col < GRID_SIZE →
  ∃ b,
    is_valid_placement row col size o w = Ok b w ∧
    (b = true ↔
     Forall (λ rc, on_board rc ∧
                   ∃ v, at2 (plain_grid (self w)) rc.1 rc.2 = Some v ∧ v ≠ 1%Z)
            (ship_cells row col size o)).
Proof.
  intros Hshape Hrow Hcol.
  destruct (is_valid_placement_total row col size o w Hshape Hrow Hcol) as [b Hb].
  exists b. split; [done|]. split.
  - intros ->. eapply Forall_impl; [by apply accepted_cells|].
    intros rc (? & ? & ?). by split.
  - intros Hall. rewrite is_valid_placement_eq in Hb.
    destruct (Nat.ltb_spec GRID_SIZE
                ((if Ascii.eqb o "H" then col else row) + size)) as [Hlong|_].
    + (* the run would leave the board: its last cell is off *)
      exfalso. rewrite Forall_forall in Hall. unfold ship_cells in Hall.
      destruct size as [|size]; [destruct (Ascii.eqb o "H"); lia|].
      destruct (Ascii.eqb o "H").
      * destruct (Hall (row, col + size)) as [[_ Hc] _]; [|cbn in Hc; lia].
        apply list_elem_of_fmap. exists (col + size). split; [done|].
        apply elem_of_seq. lia.
      * destruct (Hall (row + size, col)) as [[Hr _] _]; [|cbn in Hr; lia].
        apply list_elem_of_fmap. exists (row + size). split; [done|].
        apply elem_of_seq. lia.
    + assert (blocked (plain_grid (self w)) (ship_cells row col size o) = Some false)
        as Hfree.
      { apply blocked_free. eapply Forall_impl; [exact Hall|]. by intros rc [_ ?]. }
      rewrite Hfree in Hb. by injection Hb as <-.
Qed.

Lemma fill_keeps_one cells : ∀ g row col,
  at2 g row col = Some 1%Z → at2 (fill g cells) row col = Some 1%Z.
Proof.
  induction cells as [|[r c] cells IH]; intros g row col Hone; [done|].
  simpl. apply IH.
  destruct (decide ((r, c) = (row, col))) as [[= -> ->]|Hne].
  - apply at2_upd2_eq. eauto.
  - by rewrite at2_upd2_ne.
Qed.

Lemma at2_fill_in g cells row col :
  (row, col) ∈ cells →
  Forall (λ rc, is_Some (at2 g rc.1 rc.2)) cells →
  at2 (fill g cells) row col = Some 1%Z.
Proof.
  revert g. induction cells as [|[r c] cells IH]; intros g Hin Hall.
  - by apply elem_of_nil in Hin.
  - apply Forall_cons in Hall as [Hrc Hall]. cbn [fst snd] in Hrc. simpl.
    apply elem_of_cons in Hin as [[= -> ->]|Hin].
    + apply fill_keeps_one. by apply at2_upd2_eq.
    + apply IH; [done|]. eapply Forall_impl; [exact Hall|].
      intros rc. apply at2_upd2_is_Some.
Qed.

(** X4.  Once [set_ship] has written an accepted placement, the check
    on the new grid answers [False] for every placement, anchored on the
    board, whose run shares a cell with it: two ships never overlap. *)
Theorem overlap_rejected row col size o w w1 row' col' size' o' :
  grid_shape (plain_grid (self w)) →
  is_valid_placement row col size o w = Ok true w →
  set_ship row col size o w = Ok tt w1 →
  row' < GRID_SIZE → col' < GRID_SIZE →
  (∃ rc, rc ∈ ship_cells row col size o ∧ rc ∈ ship_cells row' col' size' o') →
  is_valid_placement row' col' size' o' w1 = Ok false w1.
Proof.
  intros Hshape Hvalid Hset Hrow' Hcol' ([r c] & Hin & Hin').
  pose proof (accepted_cells _ _ _ _ _ Hshape Hvalid) as Hcells.
  assert (Forall (λ rc, is_Some (at2 (plain_grid (self w)) rc.1 rc.2))
                 (ship_cells row col size o)) as Hsome.
  { eapply Forall_impl; [exact Hcells|]. intros rc (_ & _ & v & Hv & _). eauto. }
  rewrite (set_ship_eq _ _ _ _ _ Hsome) in Hset. injection Hset as <-.
  set (w1 := mkWorld _ _ _).
  assert (grid_shape (plain_grid (self w1))) as Hshape1 by by apply fill_shape.
  destruct (is_valid_placement_total row' col' size' o' w1 Hshape1 Hrow' Hcol')
    as [[] Hb]; [|done].
  exfalso. apply (accepted_cells _ _ _ _ _ Hshape1) in Hb.
  rewrite Forall_forall in Hb. destruct (Hb _ Hin') as (_ & _ & v & Hv & Hne).
  cbn [fst snd] in Hv. subst w1. cbn [self plain_grid with_plain_grid] in Hv.
  rewrite (at2_fill_in _ _ _ _ Hin Hsome) in Hv. congruence.
Qed.

(** ** The guess board against the ships *)

Lemma count_insert {A} (Q : A → Prop) `{∀ x, Decision (Q x)} (l : list A) c v x :
  l !! c = Some x →
  length (filter Q (<[c := v]> l)) + (if decide (Q x) then 1 else 0) =
  length (filter Q l) + (if decide (Q v) then 1 else 0).
Proof.
  revert c. induction l as [|y l IH]; intros [|c] Hc; simplify_eq/=.
  - rewrite !filter_cons. repeat case_decide; simpl; lia.
  - rewrite !filter_cons. specialize (IH _ Hc).
    destruct (decide (Q y)); simpl; lia.
Qed.

Lemma count_marks_upd2 m (g : list (list ascii)) row col v x :
  at2 g row col = Some x →
  count_marks m (upd2 g row col v) + (if decide (x = m) then 1 else 0) =
  count_marks m g + (if decide (v = m) then 1 else 0).
Proof.
  intros (r & Hg & Hx)%at2_Some. unfold upd2, count_marks. revert row Hg.
  induction g as [|r' g IH]; intros [|row] Hg; simplify_eq/=.
  - rewrite !filter_app, !length_app.
    pose proof (count_insert (λ c, c = m) _ _ v _ Hx). lia.
  - rewrite !filter_app, !length_app. specialize (IH _ Hg). lia.
Qed.

Lemma count_marks_blank m :
  m ≠ "."%char →
  count_marks m (replicate GRID_SIZE (replicate GRID_SIZE "."%char)) = 0.
Proof.
  intros Hm. unfold count_marks. generalize GRID_SIZE at 1. intros n.
  induction n as [|n IH]; [done|].
  cbn [replicate concat]. rewrite filter_app, length_app, IH.
  generalize GRID_SIZE. intros k. induction k as [|k IHk]; [done|].
  cbn [replicate]. rewrite filter_cons, decide_False by congruence. lia.
Qed.

Lemma run_attacks_marks attacks : ∀ w os w',
  consistent (self w) →
  run_attacks attacks w = Ok os w' →
  consistent (self w') ∧
  count_marks "X" (guess_board (self w')) =
    count_marks "X" (guess_board (self w)) + hits os ∧
  count_ones (plain_grid (self w')) + hits os = count_ones (plain_grid (self w)).
Proof.
  induction attacks as [|[r c] attacks IH]; intros w os w' Hc Hrun.
  - injection Hrun as <- <-. unfold hits. simpl. split; [done|]. lia.
  - cbn [run_attacks] in Hrun.
    apply bind_Ok_inv in Hrun as (o & w1 & Hone & Hrun).
    apply bind_Ok_inv in Hrun as (os' & w2 & Hrest & Hrun).
    injection Hrun as <- <-.
    pose proof (process_attack_consistent _ _ _ _ _ Hc Hone) as Hc1.
    destruct (IH _ _ _ Hc1 Hrest) as (Hc2 & Hx & Hcount).
    split; [done|]. rewrite hits_cons, Hx.
    apply process_attack_inv in Hone
      as [(-> & -> & _)|(Hdot & b & Hrecv & ->)].
    { rewrite decide_False by done. lia. }
    destruct (receive_attack_inv _ _ _ _ _ Hc Hrecv)
      as [(-> & ct & Hp & He & ->)|(-> & v & Hp & Hv & ->)].
    + rewrite decide_True by done.
      cbn [after_hit self guess_board plain_grid] in *.
      pose proof (count_marks_upd2 "X" _ _ _ "X"%char _ Hdot) as Hm.
      rewrite decide_False, decide_True in Hm by done.
      pose proof (count_ones_upd2 _ _ _ 0%Z _ Hp) as Hupd.
      unfold bit_value in Hupd. rewrite decide_True, decide_False in Hupd by done.
      lia.
    + rewrite decide_False by done.
      cbn [after_miss with_guess_board self guess_board plain_grid] in *.
      pose proof (count_marks_upd2 "X" _ _ _ "O"%char _ Hdot) as Hm.
      rewrite !decide_False in Hm by done. lia.
Qed.

(** X5.  From the board that [__init__] returns and through any run of
    attacks resolved by [main], the number of ["X"] marks on the guess
    board is the number of hits made, and together with the ship parts
    left it makes the sum of the configured ship sizes: the public board
    tells the health of the fleet. *)
Theorem hits_on_display nm pk sk fuel w0 w attacks os w' :
  keypair pk sk →
  (Z.of_nat (GRID_SIZE * GRID_SIZE) ≤ max_int pk)%Z →
  Player_init nm pk sk fuel w0 = Ok tt w →
  run_attacks attacks w = Ok os w' →
  count_marks "X" (guess_board (self w')) = hits os ∧
  check_health_homomorphically w' =
    Ok (Z.of_nat (sum_list SHIP_SIZES - count_marks "X" (guess_board (self w'))))
       (after_health w').
Proof.
  intros Hkeys Hcap Hinit Hrun.
  destruct (Player_init_spec _ _ _ _ _ _ Hkeys Hcap Hinit) as (Hc & Hcount & Hg).
  destruct (run_attacks_marks _ _ _ _ Hc Hrun) as (Hc' & Hx & Hones).
  rewrite Hg, count_marks_blank in Hx by done.
  split; [done|]. rewrite (check_health_consistent _ Hc').
  do 2 f_equal. lia.
Qed.

Lemma process_attack_truthful g0 row col w o w' :
  consistent (self w) →
  truthful g0 (self w) →
  process_attack row col w = Ok o w' →
  truthful g0 (self w').
Proof.
  intros Hc Ht Hrun.
  apply process_attack_inv in Hrun as [(_ & -> & _)|(Hdot & b & Hrecv & _)];
    [done|].
  destruct (Ht _ _ _ Hdot) as [[_ H0]|[[? _]|[? _]]]; [|done..].
  destruct (receive_attack_inv _ _ _ _ _ Hc Hrecv)
    as [(_ & ct & Hp & He & ->)|(_ & v & Hp & Hv & ->)].
  - intros r c m.
    cbn [after_hit self guess_board plain_grid].
    destruct (decide ((row, col) = (r, c))) as [[= <- <-]|Hne].
    + rewrite !at2_upd2_eq by eauto. intros [= <-].
      right. left. split; [done|]. split; [congruence | done].
    + rewrite !at2_upd2_ne by done. apply Ht.
  - intros r c m.
    cbn [after_miss with_guess_board self guess_board plain_grid].
    destruct (decide ((row, col) = (r, c))) as [[= <- <-]|Hne].
    + rewrite at2_upd2_eq by eauto. intros [= <-].
      right. right. split; [done|]. split; [congruence | done].
    + rewrite at2_upd2_ne by done. apply Ht.
Qed.

Lemma run_attacks_truthful g0 attacks : ∀ w os w',
  consistent (self w) →
  truthful g0 (self w) →
  run_attacks attacks w = Ok os w' →
  truthful g0 (self w').
Proof.
  induction attacks as [|[r c] attacks IH]; intros w os w' Hc Ht Hrun.
  - by injection Hrun as _ <-.
  - cbn [run_attacks] in Hrun.
    apply bind_Ok_inv in Hrun as (o & w1 & Hone & Hrun).
    apply bind_Ok_inv in Hrun as (os' & w2 & Hrest & Hrun).
    injection Hrun as _ <-.
    eapply IH; [| |done].
    + by eapply process_attack_consistent.
    + by eapply process_attack_truthful.
Qed.

(** X6.  From the board that [__init__] returns and through any run of
    attacks resolved by [main], the guess board tells the truth about the
    ships as placed: a cell marked ["X"] held a ship part and now holds
    0, a cell marked ["O"] held none, and an unmarked cell still holds
    what was placed there. *)
Theorem guess_board_truthful nm pk sk fuel w0 w attacks os w' :
  keypair pk sk →
  (Z.of_nat (GRID_SIZE * GRID_SIZE) ≤ max_int pk)%Z →
  Player_init nm pk sk fuel w0 = Ok tt w →
  run_attacks attacks w = Ok os w' →
  truthful (plain_grid (self w)) (self w').
Proof.
  intros Hkeys Hcap Hinit Hrun.
  destruct (Player_init_spec _ _ _ _ _ _ Hkeys Hcap Hinit) as (Hc & _ & Hg).
  eapply run_attacks_truthful; [done| |done].
  intros row col m Hm. left. split; [|done]. rewrite Hg in Hm.
  apply at2_Some in Hm as (r & Hr & Hm).
  apply lookup_replicate in Hr as [-> _].
  by apply lookup_replicate in Hm as [-> _].
Qed.

End BoardFacts.

(** * Properties of the input parser *)

Section InputFacts.
Context {cfg : Config}.



(** ** Round trip with the way the program writes coordinates *)

Lemma upper_app s t : upper (String.append s t) = String.append (upper s) (upper t).
Proof. induction s as [|c s IH]; [done|]. simpl. by rewrite IH. Qed.

Lemma is_digit_not_space c : is_digit c = true → is_space c = false.
Proof.
  unfold is_digit, is_space. cbv zeta.
  intros [H1 H2]%andb_true_iff. apply Nat.leb_le in H1.
  apply orb_false_iff. split; apply andb_false_iff; right; apply Nat.leb_gt; lia.
Qed.

Lemma is_digit_upper c : is_digit c = true → upper_char c = c.
Proof.
  unfold is_digit, upper_char. cbv zeta.
  intros [H1 H2]%andb_true_iff. apply Nat.leb_le in H2.
  destruct (Nat.leb_spec 97 (nat_of_ascii c)); [lia | done].
Qed.

Lemma is_space_upper c : is_space c = true → upper_char c = c.
Proof.
  unfold is_space, upper_char. cbv zeta. intros Hs.
  destruct (Nat.leb_spec 97 (nat_of_ascii c)) as [Hge|]; [|done].
  exfalso. apply orb_true_iff in Hs as [[_ H]%andb_true_iff|[_ H]%andb_true_iff];
    apply Nat.leb_le in H; lia.
Qed.

Lemma upper_digits s : all_digits s = true → upper s = s.
Proof.
  induction s as [|c s IH]; [done|]. simpl.
  intros [Hc Hs]%andb_true_iff. by rewrite IH, is_digit_upper.
Qed.

Lemma upper_spaces s : all_space s = true → upper s = s.
Proof.
  induction s as [|c s IH]; [done|]. simpl.
  intros [Hc Hs]%andb_true_iff. by rewrite IH, is_space_upper.
Qed.

Lemma lstrip_spaces pad s :
  all_space pad = true → lstrip (String.append pad s) = lstrip s.
Proof.
  induction pad as [|c pad IH]; [done|]. simpl.
  intros [-> Hs]%andb_true_iff. by apply IH.
Qed.

Lemma rstrip_spaces pad : all_space pad = true → rstrip pad = EmptyString.
Proof.
  induction pad as [|c pad IH]; [done|]. simpl.
  intros [-> Hs]%andb_true_iff. by rewrite IH.
Qed.

Lemma rstrip_digits s : all_digits s = true → rstrip s = s.
Proof.
  induction s as [|c s IH]; [done|]. simpl.
  intros [Hc Hs]%andb_true_iff. rewrite (IH Hs).
  destruct s; [by rewrite is_digit_not_space | done].
Qed.

Lemma rstrip_digits_spaces s pad :
  all_digits s = true → s ≠ EmptyString → all_space pad = true →
  rstrip (String.append s pad) = s.
Proof.
  induction s as [|c s IH]; [done|]. simpl.
  intros [Hc Hs]%andb_true_iff _ Hpad.
  destruct s as [|c' s].
  - simpl. by rewrite rstrip_spaces, is_digit_not_space.
  - rewrite IH by done. done.
Qed.

Lemma all_digits_uint d : all_digits (NilEmpty.string_of_uint d) = true.
Proof. induction d; simpl; done. Qed.

Lemma to_uint_nonnil n : Nat.to_uint n ≠ Decimal.Nil.
Proof.
  rewrite <- (DecimalNat.Unsigned.of_to n) at 1.
  rewrite DecimalNat.Unsigned.to_of. unfold Decimal.unorm.
  by destruct (Decimal.nzhead (Nat.to_uint n)).
Qed.

Lemma str_digits n : all_digits (str n) = true ∧ str n ≠ EmptyString.
Proof.
  split; [apply all_digits_uint|]. unfold str.
  pose proof (to_uint_nonnil n). by destruct (Nat.to_uint n).
Qed.

Lemma int_str n :
  (Z.of_nat (String.length (str n)) ≤ max_str_digits)%Z → int (str n) = Some n.
Proof.
  intros Hlen. unfold int.
  destruct (Z.ltb_spec max_str_digits (Z.of_nat (String.length (str n))));
    [lia|].
  unfold str. rewrite NilEmpty.usu. simpl.
  by rewrite DecimalNat.Unsigned.of_to.
Qed.

Lemma str_short n : n ≤ 26 → String.length (str n) ≤ 2.
Proof.
  intros Hn. do 27 (destruct n as [|n]; [vm_compute; lia|]). lia.
Qed.

Lemma nat_of_chr n : n < 256 → nat_of_ascii (chr n) = n.
Proof. apply nat_ascii_embedding. Qed.

(** X8.  Round trip with the way [main] announces a guess and
    [print_board_view] labels the board: on a board of at most 26 rows,
    the letter of a row, in upper or lower case, followed by the column
    number counted from 1, with any white space around, is read back as
    that row and column. *)
Theorem parse_announced row col (lower : bool) pad1 pad2 :
  GRID_SIZE ≤ 26 →
  row < GRID_SIZE → col < GRID_SIZE →
  all_space pad1 = true → all_space pad2 = true →
  parse_coordinates
    (String.append pad1
       (String (chr ((if lower then 97 else 65) + row))
               (String.append (str (col + 1)) pad2))) = Some (row, col).
Proof.
  intros Hsize Hrow Hcol Hpad1 Hpad2.
  destruct (str_digits (col + 1)) as [Hdig Hne].
  assert (upper_char (chr ((if lower then 97 else 65) + row)) = chr (65 + row))
    as Hup.
  { unfold upper_char. rewrite nat_of_chr by (destruct lower; lia).
    destruct lower.
    - destruct (Nat.leb_spec 97 (97 + row)); [|lia].
      destruct (Nat.leb_spec (97 + row) 122); [|lia].
      done.
    - destruct (Nat.leb_spec 97 (65 + row)); [lia | done]. }
  assert (is_alpha (chr (65 + row)) = true) as Halpha.
  { unfold is_alpha. rewrite nat_of_chr by lia.
    destruct (Nat.leb_spec 65 (65 + row)); [|lia].
    destruct (Nat.leb_spec (65 + row) 90); [done | lia]. }
  assert (is_space (chr (65 + row)) = false) as Hnsp.
  { unfold is_space. rewrite nat_of_chr by lia.
    apply orb_false_iff. split; apply andb_false_iff; right; apply Nat.leb_gt; lia. }
  unfold parse_coordinates.
  assert (strip (upper (String.append pad1
            (String (chr ((if lower then 97 else 65) + row))
               (String.append (str (col + 1)) pad2))))
          = String (chr (65 + row)) (str (col + 1))) as ->.
  { rewrite upper_app. cbn [upper]. rewrite upper_app, Hup.
    rewrite (upper_spaces _ Hpad1), (upper_spaces _ Hpad2), (upper_digits _ Hdig).
    unfold strip. rewrite (lstrip_spaces _ _ Hpad1). cbn [lstrip]. rewrite Hnsp.
    cbn [rstrip]. rewrite (rstrip_digits_spaces _ _ Hdig Hne Hpad2).
    by destruct (str (col + 1)). }
  assert ((String.length (String (chr (65 + row)) (str (col + 1))) <? 2) = false)
    as ->.
  { apply Nat.ltb_ge. destruct (str (col + 1)); [done | simpl; lia]. }
  rewrite Halpha. unfold isdigit.
  assert (match str (col + 1) with
          | EmptyString => false
          | String _ _ => all_digits (str (col + 1))
          end = true) as ->.
  { by destruct (str (col + 1)). }
  cbn [negb orb].
  rewrite int_str
    by (pose proof (str_short (col + 1)); unfold max_str_digits; lia).
  cbv zeta.
  rewrite nat_of_chr by lia.
  destruct (Z.leb_spec 0 (Z.of_nat (65 + row) - 65)); [|lia].
  destruct (Z.ltb_spec (Z.of_nat (65 + row) - 65) (Z.of_nat GRID_SIZE)); [|lia].
  destruct (Z.leb_spec 0 (Z.of_nat (col + 1) - 1)); [|lia].
  destruct (Z.ltb_spec (Z.of_nat (col + 1) - 1) (Z.of_nat GRID_SIZE)); [|lia].
  cbn [andb]. f_equal. f_equal; lia.
Qed.

End InputFacts.

(** * Properties of the display *)

Section DisplayFacts.
Context {P : Paillier} {cfg : Config}.

Lemma print_rows (g : list (list ascii)) m : ∀ k printed w,
  guess_board (self w) = g →
  for_acc (seq k m) (λ printed r,
    p ← get_self;
    row ← index (guess_board p) r;
    mret (printed ++ [row_line r row])) printed w =
  match mapM (λ r, row_line r <$> g !! r) (seq k m) with
  | Some rows => Ok (printed ++ rows) w
  | None => Raise IndexError
  end.
Proof.
  induction m as [|m IH]; intros k printed w Hg.
  - cbn. by rewrite app_nil_r.
  - cbn [seq for_acc mapM]. rewrite bind_unfold, bind_unfold. cbn [get_self].
    rewrite bind_unfold. unfold index. rewrite Hg.
    destruct (g !! k) as [row|]; [|done]. cbn [mret M_ret fmap option_fmap option_map].
    rewrite IH by done. cbn [mbind option_bind].
    destruct (mapM _ (seq (S k) m)) as [rows|]; [|done].
    cbn. by rewrite <- app_assoc.
Qed.

Lemma print_board_view_eq w :
  print_board_view w =
  match board_view (name (self w)) (guess_board (self w)) with
  | Some v => Ok v w
  | None => Raise IndexError
  end.
Proof.
  unfold print_board_view, board_view.
  rewrite bind_unfold. cbn [get_self]. rewrite bind_unfold, range_seq.
  rewrite (print_rows (guess_board (self w))) by done.
  by destruct (mapM _ _).
Qed.

(** X9.  [print_board_view] changes nothing, and what it prints depends
    on the player's name and guess board only: two players with the same
    name and the same guess board are displayed alike, wherever their
    ships are and whatever their keys and ciphertexts. *)
Theorem print_board_view_public w v w' w2 :
  print_board_view w = Ok v w' →
  w' = w ∧
  (name (self w2) = name (self w) →
   guess_board (self w2) = guess_board (self w) →
   print_board_view w2 = Ok v w2).
Proof.
  rewrite print_board_view_eq. intros Hrun.
  destruct (board_view _ _) as [v'|] eqn:Hview; [|done].
  injection Hrun as <- <-. split; [done|].
  intros Hn Hg. by rewrite print_board_view_eq, Hn, Hg, Hview.
Qed.


Lemma mapM_rows (g : list (list ascii)) m : ∀ k,
  k + m ≤ length g →
  ∃ rows,
    mapM (λ r, row_line r <$> g !! r) (seq k m) = Some rows ∧
    length rows = m ∧
    ∀ i row, i < m → g !! (k + i) = Some row →
             rows !! i = Some (row_line (k + i) row).
Proof.
  induction m as [|m IH]; intros k Hk.
  - exists []. split; [done|]. split; [done|]. intros; lia.
  - destruct (lookup_lt_is_Some_2 g k) as [row Hrow]; [lia|].
    destruct (IH (S k)) as (rows & Hrows & Hlen & Hget); [lia|].
    exists (row_line k row :: rows). cbn [seq mapM]. rewrite Hrow, Hrows.
    split; [done|]. split; [simpl; lia|].
    intros [|i] row' Hi Hrow'.
    + rewrite Nat.add_0_r in *. simpl. congruence.
    + simpl. replace (k + S i) with (S k + i) in * by lia.
      apply Hget; [lia | done].
Qed.

Lemma print_board_view_returns w :
  grid_shape (guess_board (self w)) → ∃ v, print_board_view w = Ok v w.
Proof.
  intros [Hlen _].
  destruct (mapM_rows (guess_board (self w)) GRID_SIZE 0) as (rows & Hmap & _);
    [lia|].
  exists (title_line (name (self w)) :: columns_line :: rows).
  rewrite print_board_view_eq. unfold board_view. by rewrite Hmap.
Qed.


End DisplayFacts.

(** * Properties of the match *)

Section MatchFacts.
Context {P : Paillier} {L : PaillierLaws P} {cfg : Config}.

Lemma randint_literal w :
  randint 0 9 w =
  Ok (random w 0 `mod` 10) (mkWorld (self w) (λ n, random w (S n)) (entropy w)).
Proof.
  unfold randint. cbn [Z.ltb Z.compare]. rewrite bind_unfold. cbn [draw mret M_ret].
  f_equal. change (9 - 0 + 1)%Z with (Z.of_nat 10).
  rewrite Z.add_0_l, <- Nat2Z.inj_mod. apply Nat2Z.id.
Qed.

Lemma bob_guess_step fuel w :
  bob_guess (S fuel) w =
  let row := random w 0 `mod` 10 in
  let col := random w 1 `mod` 10 in
  let w' := mkWorld (self w) (λ n, random w (S (S n))) (entropy w) in
  match at2 (guess_board (self w)) row col with
  | None => Raise IndexError
  | Some g => if Ascii.eqb g "." then Ok (row, col) w' else bob_guess fuel w'
  end.
Proof.
  cbn [bob_guess]. rewrite bind_unfold, randint_literal.
  rewrite bind_unfold, randint_literal. cbn [self random entropy].
  rewrite bind_unfold. cbn [get_self self]. rewrite bind_unfold. cbv zeta.
  destruct (at2 (guess_board (self w)) _ _) as [g|] eqn:Hg.
  - rewrite (cell_Ok _ _ _ _ _ Hg). by destruct (Ascii.eqb g ".").
  - by rewrite (cell_None _ _ _ _ Hg).
Qed.

Lemma bob_guess_inv fuel : ∀ w row col w',
  bob_guess fuel w = Ok (row, col) w' →
  row ≤ 9 ∧ col ≤ 9 ∧
  at2 (guess_board (self w)) row col = Some "."%char ∧
  self w' = self w ∧ entropy w' = entropy w.
Proof.
  induction fuel as [|fuel IH]; intros w row col w' Hrun; [done|].
  rewrite bob_guess_step in Hrun. cbv zeta in Hrun.
  destruct (at2 _ _ _) as [g|] eqn:Hg; [|done].
  destruct (Ascii.eqb_spec g ".") as [->|Hne].
  - injection Hrun as <- <- <-.
    pose proof (Nat.mod_upper_bound (random w 0) 10 ltac:(lia)).
    pose proof (Nat.mod_upper_bound (random w 1) 10 ltac:(lia)).
    repeat split; try done; lia.
  - apply IH in Hrun as (? & ? & ? & ? & ?). done.
Qed.

(** X11.  When Bob's pick returns, the cell is un-guessed and lies in
    rows and columns 0 to 9, the literal bounds of the source, whatever
    [GRID_SIZE] is; the defender's board is as before and no encryption
    randomness was used. *)
Theorem bob_guess_unmarked fuel w row col w' :
  bob_guess fuel w = Ok (row, col) w' →
  row ≤ 9 ∧ col ≤ 9 ∧
  at2 (guess_board (self w)) row col = Some "."%char ∧
  self w' = self w ∧ entropy w' = entropy w.
Proof. apply bob_guess_inv. Qed.

(** X12.  On a guess board of the configured size, when that size is
    below 10, a draw of Bob that falls outside the grid raises
    [IndexError]: his bounds are the literals 0 and 9, not [GRID_SIZE]. *)
Theorem bob_guess_off_board fuel w :
  grid_shape (guess_board (self w)) →
  GRID_SIZE ≤ random w 0 `mod` 10 ∨ GRID_SIZE ≤ random w 1 `mod` 10 →
  bob_guess (S fuel) w = Raise IndexError.
Proof.
  intros Hshape Hoff. rewrite bob_guess_step. cbv zeta.
  rewrite at2_off_board; [done | done | lia].
Qed.

(** ** One turn *)

Lemma turn_eq row col w o w1 :
  consistent (self w) →
  process_attack row col w = Ok o w1 →
  turn row col w =
  Ok (o, Z.of_nat (count_ones (plain_grid (self w1))),
      (Z.of_nat (count_ones (plain_grid (self w1))) =? 0)%Z)
     (after_health w1).
Proof.
  intros Hc Hrun. unfold turn. rewrite bind_unfold, Hrun.
  rewrite bind_unfold, check_health_consistent; [done|].
  by eapply process_attack_consistent.
Qed.

Lemma turn_inv row col w o life dead w' :
  consistent (self w) →
  turn row col w = Ok (o, life, dead) w' →
  ∃ w1, process_attack row col w = Ok o w1 ∧ w' = after_health w1 ∧
        life = Z.of_nat (count_ones (plain_grid (self w1))) ∧
        dead = (count_ones (plain_grid (self w1)) =? 0).
Proof.
  intros Hc Hrun.
  destruct (process_attack row col w) as [o1 w1| |] eqn:Hone.
  - rewrite (turn_eq _ _ _ _ _ Hc Hone) in Hrun. injection Hrun as <- <- <- <-.
    exists w1. repeat split; try done.
    destruct (count_ones (plain_grid (self w1))); done.
  - unfold turn in Hrun. by rewrite bind_unfold, Hone in Hrun.
  - unfold turn in Hrun. by rewrite bind_unfold, Hone in Hrun.
Qed.

Lemma process_attack_name row col w o w' :
  consistent (self w) → process_attack row col w = Ok o w' →
  name (self w') = name (self w).
Proof.
  intros Hc [(_ & -> & _)|(_ & b & Hrun & _)]%process_attack_inv; [done|].
  by destruct (receive_attack_inv _ _ _ _ _ Hc Hrun)
    as [(_ & ct & _ & _ & ->)|(_ & v & _ & _ & ->)].
Qed.

Lemma process_attack_board_ok nm row col w o w' :
  board_ok nm (self w) → process_attack row col w = Ok o w' →
  board_ok nm (self w').
Proof.
  intros (Hn & Hc & Hm) Hrun. split; [|split].
  - by rewrite (process_attack_name _ _ _ _ _ Hc Hrun).
  - by eapply process_attack_consistent.
  - by eapply process_attack_marks_sound.
Qed.

Lemma print_board_view_ok w :
  consistent (self w) → ∃ v, print_board_view w = Ok v w.
Proof.
  intros Hc. apply print_board_view_returns, (cons_guess _ Hc).
Qed.

(** What a completed turn did, in terms of the defender's methods. *)
Lemma play_turn_inv fuel s s' :
  match_inv s →
  play_turn fuel s = MOk s' →
  ∃ row col o w w1,
    self w = (if alice_next s then bob s else alice s) ∧
    (if alice_next s
     then get_coordinates (stdin s) = Some (row, col, stdin s')
     else stdin s' = stdin s ∧ row ≤ 9 ∧ col ≤ 9 ∧
          at2 (guess_board (alice s)) row col = Some "."%char) ∧
    process_attack row col w = Ok o w1 ∧
    alice s' = (if alice_next s then alice s else self w1) ∧
    bob s' = (if alice_next s then self w1 else bob s) ∧
    turn_count s' = S (turn_count s) ∧
    game_over s' =
      (if count_ones (plain_grid (self w1)) =? 0 then true else game_over s).
Proof.
  intros [(Hna & Hca & Hma) (Hnb & Hcb & Hmb)] Hrun.
  unfold play_turn in Hrun. cbv zeta in Hrun. fold (alice_next s) in Hrun.
  assert (consistent (self (defender_world (alice_next s) s))) as Hcd.
  { unfold defender_world. cbn [self]. by destruct (alice_next s). }
  destruct (print_board_view_ok _ Hcd) as (v & Hv). rewrite Hv in Hrun.
  assert (name (if alice_next s then alice s else bob s)
          = if alice_next s then "Alice" else "Bob")%string as Hname.
  { by destruct (alice_next s). }
  rewrite Hname in Hrun.
  destruct (alice_next s) eqn:Hnext; cbn [String.eqb Ascii.eqb Bool.eqb] in Hrun.
  - destruct (get_coordinates (stdin s)) as [[[row col] rest]|]; [|done].
    destruct (turn row col _) as [[[o life] dead] w'| |] eqn:Hturn; [|done..].
    apply (turn_inv _ _ _ _ _ _ _ Hcd) in Hturn as (w1 & Hone & -> & -> & ->).
    injection Hrun as <-. cbn [alice bob turn_count game_over stdin].
    exists row, col, o, (defender_world true s), w1. by repeat split.
  - rewrite bind_unfold in Hrun.
    destruct (bob_guess fuel _) as [[row col] w| |] eqn:Hguess; [|done..].
    apply bob_guess_inv in Hguess as (Hrow & Hcol & Hdot & Hself & _).
    assert (consistent (self w)) as Hcw by by rewrite Hself.
    cbn [fst snd] in Hrun.
    destruct (turn row col w) as [[[o life] dead] w'| |] eqn:Hturn; [|done..].
    apply (turn_inv _ _ _ _ _ _ _ Hcw) in Hturn as (w1 & Hone & -> & -> & ->).
    injection Hrun as <-. cbn [alice bob turn_count game_over stdin].
    exists row, col, o, w, w1. by repeat split.
Qed.

(** ** The states of a match *)

Lemma alice_next_mod s :
  alice_next s = true ↔ S (turn_count s) `mod` 2 ≠ 0.
Proof.
  unfold alice_next. destruct (Nat.eqb_spec (S (turn_count s) `mod` 2) 0); simpl.
  - split; [done|]. intros Hne. by destruct Hne.
  - by split.
Qed.

Lemma in_match_inv s : in_match s → match_inv s.
Proof.
  induction 1 as [pka ska pkb skb fuel rnd ent lines s Hka Hkb Hca Hcb Hrun
                 | fuel s s' _ IH Hover Hrun].
  - unfold main_setup in Hrun.
    destruct (Player_init "Alice" pka ska fuel _) as [[] wa| |] eqn:Ha; [|done..].
    destruct (Player_init "Bob" pkb skb fuel wa) as [[] wb| |] eqn:Hb; [|done..].
    injection Hrun as <-. cbn [match_inv alice bob].
    pose proof (reach_init _ _ _ _ _ _ Hka Hca Ha) as Hra.
    pose proof (reach_init _ _ _ _ _ _ Hkb Hcb Hb) as Hrb.
    destruct (Player_init_fields _ _ _ _ _ _ Hka Hca Ha) as (Hna & _).
    destruct (Player_init_fields _ _ _ _ _ _ Hkb Hcb Hb) as (Hnb & _).
    split; (split; [done|]);
      (split; [by apply reachable_consistent | by apply reachable_marks_sound]).
  - destruct (play_turn_inv _ _ _ IH Hrun)
      as (row & col & o & w & w1 & Hself & _ & Hone & Ha & Hb & _).
    destruct IH as [Hoka Hokb]. unfold match_inv. rewrite Ha, Hb.
    destruct (alice_next s).
    + split; [done|]. eapply process_attack_board_ok; [|done]. by rewrite Hself.
    + split; [|done]. eapply process_attack_board_ok; [|done]. by rewrite Hself.
Qed.

(** X13.  Throughout a match both boards keep the invariants of a
    board: each player keeps its name, every ciphertext of either grid
    decrypts to the plaintext cell under it, and a cell that still holds
    a ship part is unmarked. *)
Theorem match_boards_consistent s :
  in_match s →
  name (alice s) = "Alice"%string ∧ name (bob s) = "Bob"%string ∧
  consistent (alice s) ∧ consistent (bob s) ∧
  marks_sound (alice s) ∧ marks_sound (bob s).
Proof.
  intros [(Hna & Hca & Hma) (Hnb & Hcb & Hmb)]%in_match_inv. done.
Qed.


(** X15.  In a match that has played at least one turn, [game_over] is
    set exactly when the board attacked last has no ship part left: the
    attacker of the last turn is declared winner when, and only when, the
    defender's fleet is gone. *)
Theorem game_over_iff_sunk s :
  in_match s →
  1 ≤ turn_count s →
  game_over s = true ↔
  count_ones (plain_grid (if turn_count s `mod` 2 =? 0 then alice s else bob s))
    = 0.
Proof.
  intros Hin Hturn. destruct Hin as [? ? ? ? ? ? ? ? s _ _ _ _ Hrun|fuel s s' Hin Hover Hrun].
  - unfold main_setup in Hrun.
    destruct (Player_init "Alice" _ _ _ _) as [[] wa| |]; [|done..].
    destruct (Player_init "Bob" _ _ _ _) as [[] wb| |]; [|done..].
    injection Hrun as <-. cbn in Hturn. lia.
  - destruct (play_turn_inv _ _ _ (in_match_inv _ Hin) Hrun)
      as (row & col & o & w & w1 & _ & _ & _ & Ha & Hb & Htc & Hgo).
    rewrite Hgo, Hover, Htc, Ha, Hb. unfold alice_next.
    destruct (S (turn_count s) `mod` 2 =? 0); cbn [negb];
      destruct (Nat.eqb_spec (count_ones (plain_grid (self w1))) 0); done.
Qed.

Lemma process_attack_fresh_guess row col w o w1 :
  at2 (guess_board (self w)) row col = Some "."%char →
  process_attack row col w = Ok o w1 →
  (o = Hit ∨ o = Miss) ∧
  guess_board (self w1) =
    upd2 (guess_board (self w)) row col (if decide (o = Hit) then "X" else "O")%char.
Proof.
  intros Hdot [(_ & _ & g & Hg & Hne)|(_ & b & Hrun & ->)]%process_attack_inv.
  - congruence.
  - apply receive_attack_guess in Hrun as [_ ->]. destruct b; eauto.
Qed.

(** X16.  Bob never wastes a turn: on an even turn that completes, the
    cell he attacks was un-guessed, the attack is a hit or a miss, and
    Alice's guess board gains exactly that one mark. *)
Theorem bob_turn_marks_new_cell fuel s s' :
  in_match s →
  S (turn_count s) `mod` 2 = 0 →
  play_turn fuel s = MOk s' →
  ∃ row col,
    row ≤ 9 ∧ col ≤ 9 ∧
    at2 (guess_board (alice s)) row col = Some "."%char ∧
    marked (alice s') row col ∧
    ∀ r c, (r, c) ≠ (row, col) →
           at2 (guess_board (alice s')) r c = at2 (guess_board (alice s)) r c.
Proof.
  intros Hinv%in_match_inv Heven Hrun.
  destruct (play_turn_inv _ _ _ Hinv Hrun)
    as (row & col & o & w & w1 & Hself & Hcoord & Hone & Ha & _).
  assert (alice_next s = false) as Hnext.
  { destruct (alice_next s) eqn:Hn; [|done]. apply alice_next_mod in Hn. lia. }
  rewrite Hnext in *. destruct Hcoord as (_ & Hrow & Hcol & Hdot).
  exists row, col. split; [done|]. split; [done|]. split; [done|].
  rewrite <- Hself in Hdot.
  destruct (process_attack_fresh_guess _ _ _ _ _ Hdot Hone) as [Ho Hg].
  rewrite Ha. split.
  - by eapply process_attack_marks.
  - intros r c Hne. rewrite Hg, Hself. apply at2_upd2_ne. congruence.
Qed.

Lemma get_coordinates_none lines :
  Forall (λ l, parse_coordinates l = None) lines → get_coordinates lines = None.
Proof. induction 1 as [|l lines Hl _ IH]; [done|]. cbn. by rewrite Hl. Qed.

(** X17.  The wasted turn: when Alice enters, in ASCII text, a
    coordinate that is already marked on Bob's board, the turn completes
    with both boards
    exactly as they were; the input is read, the turn counter advances,
    and the referee's check still runs on Bob's unchanged board. *)
Theorem alice_wasted_turn fuel s row col rest :
  in_match s →
  Forall (λ l, isascii l = true) (stdin s) →
  S (turn_count s) `mod` 2 ≠ 0 →
  get_coordinates (stdin s) = Some (row, col, rest) →
  marked (bob s) row col →
  ∃ s',
    play_turn fuel s = MOk s' ∧
    alice s' = alice s ∧ bob s' = bob s ∧
    turn_count s' = S (turn_count s) ∧
    stdin s' = rest ∧
    game_over s' =
      (if count_ones (plain_grid (bob s)) =? 0 then true else game_over s).
Proof.
  intros [(Hna & Hca & Hma) (Hnb & Hcb & Hmb)]%in_match_inv _
         Hodd%alice_next_mod Hcoord (m & Hm & Hdot).
  unfold play_turn. cbv zeta. fold (alice_next s). rewrite Hodd.
  assert (consistent (self (defender_world true s))) as Hcd by done.
  destruct (print_board_view_ok _ Hcd) as (v & ->).
  rewrite Hna. cbn [String.eqb Ascii.eqb Bool.eqb]. rewrite Hcoord.
  assert (process_attack row col (defender_world true s)
          = Ok AlreadyAttacked (defender_world true s)) as Hone.
  { by apply (process_attack_repeat _ _ _ m). }
  rewrite (turn_eq _ _ _ _ _ Hcd Hone). cbn [finish_turn].
  eexists. split; [done|]. cbn [alice bob turn_count stdin game_over
    defender_world after_health self].
  repeat split; try done.
  by destruct (count_ones (plain_grid (bob s))).
Qed.

(** X18.  When it is Alice's turn and no line left on the input, all
    of it ASCII text, is an acceptable coordinate, the turn does not
    complete: [input] reaches the end of the input and [EOFError] leaves
    [main]. *)
Theorem alice_out_of_input fuel s :
  in_match s →
  Forall (λ l, isascii l = true) (stdin s) →
  S (turn_count s) `mod` 2 ≠ 0 →
  Forall (λ l, parse_coordinates l = None) (stdin s) →
  play_turn fuel s = MEOFError.
Proof.
  intros [(Hna & Hca & _) (_ & Hcb & _)]%in_match_inv _ Hodd%alice_next_mod Hnone.
  unfold play_turn. cbv zeta. fold (alice_next s). rewrite Hodd.
  assert (consistent (self (defender_world true s))) as Hcd by done.
  destruct (print_board_view_ok _ Hcd) as (v & ->).
  rewrite Hna. cbn [String.eqb Ascii.eqb Bool.eqb].
  by rewrite get_coordinates_none.
Qed.

(** X19.  The loop of [main] only ends on a finished game: when it
    returns, the final state is a state of the match with [game_over]
    set. *)
Theorem play_ends_game_over turns fuel : ∀ s s',
  in_match s →
  play turns fuel s = MOk s' →
  in_match s' ∧ game_over s' = true.
Proof.
  induction turns as [|turns IH]; intros s s' Hin Hrun; cbn [play] in Hrun.
  - destruct (game_over s) eqn:Hover; [|done]. by injection Hrun as <-.
  - destruct (game_over s) eqn:Hover; [by injection Hrun as <-|].
    destruct (play_turn fuel s) as [s1| | |] eqn:Hturn; [|done..].
    eapply IH; [|done]. by eapply match_turn.
Qed.

End MatchFacts.

(** ** The small instance satisfies the laws *)

Module ToyPaillierFacts.
Import ToyPaillier.

Local Open Scope Z_scope.

Lemma powmod_pos_pow b e m :
  0 < m → powmod_pos b e m = b ^ Z.pos e mod m.
Proof.
  intros Hm. induction e as [e IH|e IH|]; cbn [powmod_pos].
  - rewrite IH, Pos2Z.inj_xI, Z.pow_add_r, Z.pow_1_r by lia.
    replace (2 * Z.pos e) with (Z.pos e + Z.pos e) by lia.
    rewrite Z.pow_add_r by lia.
    rewrite <- Z.mul_mod by lia. by rewrite Z.mul_mod_idemp_l by lia.
  - rewrite IH, Pos2Z.inj_xO.
    replace (2 * Z.pos e) with (Z.pos e + Z.pos e) by lia.
    rewrite Z.pow_add_r by lia. by rewrite <- Z.mul_mod by lia.
  - by rewrite Z.pow_1_r.
Qed.

Lemma powmod_pow b e m : 0 < m → powmod b e m = b ^ e mod m.
Proof.
  intros Hm. destruct e as [|e|e]; cbn [powmod].
  - by rewrite Z.pow_0_r.
  - by apply powmod_pos_pow.
  - rewrite Z.pow_neg_r by lia. by rewrite Z.mod_0_l by lia.
Qed.

Section Algebra.
Variables n lam mu : Z.
Hypothesis Hn : 3 ≤ n.
Hypothesis Hlam : 0 ≤ lam.
Hypothesis Hmu : (lam * mu) mod n = 1.

Lemma one_plus_mod a : (1 + n * a) mod (n * n) = 1 + n * (a mod n).
Proof.
  symmetry. apply Z.mod_unique with (q := a / n).
  - left. pose proof (Z.mod_pos_bound a n ltac:(lia)). nia.
  - rewrite (Z.div_mod a n) at 1 by lia. ring.
Qed.

Lemma one_plus_mod_n a : (1 + n * a) mod n = 1.
Proof.
  replace (1 + n * a) with (1 + a * n) by ring.
  rewrite Z.mod_add by lia. apply Z.mod_small. lia.
Qed.

(** Residues congruent to 1 modulo [n] multiply by adding their [L]. *)
Lemma unit_mul a b :
  ((1 + n * a) * (1 + n * b)) mod (n * n) = 1 + n * ((a + b) mod n).
Proof.
  replace ((1 + n * a) * (1 + n * b)) with (1 + n * (a + b + a * b * n)) by ring.
  rewrite one_plus_mod. by rewrite Z.mod_add by lia.
Qed.

Lemma unit_form x :
  0 ≤ x < n * n → x mod n = 1 → x = 1 + n * L n x ∧ 0 ≤ L n x < n.
Proof.
  intros Hx Hmod. unfold L.
  pose proof (Z.div_mod x n ltac:(lia)) as Hdiv. rewrite Hmod in Hdiv.
  assert ((x - 1) / n = x / n) as ->.
  { replace (x - 1) with (x / n * n + 0) by lia.
    rewrite Z.div_add_l by lia. rewrite Z.div_0_l by lia. lia. }
  split; [lia|]. split; [apply Z.div_pos; lia|].
  apply Z.div_lt_upper_bound; lia.
Qed.

Lemma unit_pow a k :
  0 ≤ k → (1 + n * a) ^ k mod (n * n) = 1 + n * ((k * a) mod n).
Proof.
  intros Hk. pattern k. apply natlike_ind; [| |done].
  - rewrite Z.pow_0_r, Z.mul_0_l, Z.mod_0_l by lia.
    rewrite Z.mod_small by nia. lia.
  - clear k Hk. intros k Hk IH.
    rewrite Z.pow_succ_r by done.
    rewrite <- Z.mul_mod_idemp_r by nia.
    rewrite IH, unit_mul. f_equal. f_equal.
    rewrite Zplus_mod_idemp_r. f_equal. ring.
Qed.

Local Abbreviation res := (residue n lam).
Local Abbreviation dlog := (ell n lam mu).

Lemma residue_mul c1 c2 :
  res ((c1 * c2) mod (n * n)) = (res c1 * res c2) mod (n * n).
Proof.
  unfold residue. rewrite !powmod_pow by nia. rewrite <- Zpower_mod by nia.
  rewrite Z.pow_mul_l. apply Z.mul_mod. nia.
Qed.

Lemma residue_bound c : 0 ≤ res c < n * n.
Proof. unfold residue. rewrite powmod_pow by nia. apply Z.mod_pos_bound. nia. Qed.

Lemma ell_mul c1 c2 :
  res c1 mod n = 1 → res c2 mod n = 1 →
  res ((c1 * c2) mod (n * n)) mod n = 1 ∧
  dlog ((c1 * c2) mod (n * n)) = (dlog c1 + dlog c2) mod n.
Proof.
  intros H1 H2.
  destruct (unit_form _ (residue_bound c1) H1) as [E1 B1].
  destruct (unit_form _ (residue_bound c2) H2) as [E2 B2].
  assert (res ((c1 * c2) mod (n * n)) =
          1 + n * ((L n (res c1) + L n (res c2)) mod n)) as Hres.
  { rewrite residue_mul. rewrite E1 at 1. rewrite E2 at 1. apply unit_mul. }
  split.
  - rewrite Hres. apply one_plus_mod_n.
  - unfold ell at 1. rewrite Hres.
    assert (∀ y, 0 ≤ y < n → L n (1 + n * y) = y) as HL.
    { intros y Hy. unfold L. replace (1 + n * y - 1) with (y * n) by ring.
      apply Z.div_mul. lia. }
    rewrite HL by (apply Z.mod_pos_bound; lia).
    unfold ell. rewrite Z.mul_mod_idemp_l by lia.
    rewrite <- Z.add_mod by lia. f_equal. ring.
Qed.

Lemma ell_fresh m rho :
  powmod rho lam (n * n) = 1 →
  res (((1 + n * m) * rho) mod (n * n)) mod n = 1 ∧
  dlog (((1 + n * m) * rho) mod (n * n)) = m mod n.
Proof.
  intros Hrho.
  assert (res (((1 + n * m) * rho) mod (n * n)) =
          1 + n * ((lam * m) mod n)) as Hres.
  { rewrite residue_mul. unfold residue. rewrite Hrho, Z.mul_1_r.
    rewrite powmod_pow, Z.mod_mod by nia. by apply unit_pow. }
  split.
  - rewrite Hres. apply one_plus_mod_n.
  - unfold ell. rewrite Hres. unfold L.
    replace (1 + n * ((lam * m) mod n) - 1) with ((lam * m) mod n * n) by ring.
    rewrite Z.div_mul by lia. rewrite Z.mul_mod_idemp_l by lia.
    replace (lam * m * mu) with (lam * mu * m) by ring.
    rewrite <- Z.mul_mod_idemp_l by lia. rewrite Hmu. f_equal. lia.
Qed.

Lemma decode_encode m :
  - (n / 3 - 1) ≤ m ≤ n / 3 - 1 → decode n (m mod n) = Some m.
Proof.
  intros Hm. pose proof (Z.div_mod n 3 ltac:(lia)).
  pose proof (Z.mod_pos_bound n 3 ltac:(lia)).
  unfold decode. destruct (Z.le_gt_cases 0 m) as [Hpos|Hneg].
  - rewrite Z.mod_small by lia.
    destruct (Z.leb_spec m (n / 3 - 1)); [done | lia].
  - assert (m mod n = m + n) as ->.
    { symmetry. apply Z.mod_unique with (q := -1); lia. }
    destruct (Z.leb_spec (m + n) (n / 3 - 1)); [lia|].
    destruct (Z.leb_spec (n - (n / 3 - 1)) (m + n)); [f_equal; lia | lia].
Qed.

Lemma decode_inv x a :
  0 ≤ x < n → decode n x = Some a →
  x = a mod n ∧ - (n / 3 - 1) ≤ a ≤ n / 3 - 1.
Proof.
  intros Hx. unfold decode.
  pose proof (Z.div_mod n 3 ltac:(lia)).
  pose proof (Z.mod_pos_bound n 3 ltac:(lia)).
  destruct (Z.leb_spec x (n / 3 - 1)).
  - intros [= <-]. rewrite Z.mod_small by lia. lia.
  - destruct (Z.leb_spec (n - (n / 3 - 1)) x); [|done].
    intros [= <-]. split; [|lia].
    apply Z.mod_unique with (q := -1); lia.
Qed.

Hypothesis Hunits : ∀ r, powmod (obfuscator n r) lam (n * n) = 1.

Lemma toy_decrypt_encrypt r m :
  - (n / 3 - 1) ≤ m ≤ n / 3 - 1 →
  toy_decrypt (mkPrivate n lam mu) (toy_encrypt (mkPublic n) r m) = Some m.
Proof.
  intros Hm. unfold toy_decrypt, toy_encrypt. cbn [priv_n priv_lambda priv_mu pub_n ct_n ct_value].
  destruct (ell_fresh (m mod n) (obfuscator n r) (Hunits r)) as [Hres Hell].
  rewrite Z.eqb_refl, Hres, Hell, Z.mod_mod by lia. cbn [andb Z.eqb Pos.eqb].
  by apply decode_encode.
Qed.

Lemma toy_decrypt_Some c a :
  toy_decrypt (mkPrivate n lam mu) c = Some a →
  ct_n c = n ∧ res (ct_value c) mod n = 1 ∧
  dlog (ct_value c) = a mod n ∧ - (n / 3 - 1) ≤ a ≤ n / 3 - 1.
Proof.
  unfold toy_decrypt. cbn [priv_n priv_lambda priv_mu].
  destruct (Z.eqb_spec (ct_n c) n) as [Hcn|]; [|done].
  destruct (Z.eqb_spec (res (ct_value c) mod n) 1) as [Hres|]; [|done].
  cbn [andb]. intros Hdec.
  apply decode_inv in Hdec; [|apply Z.mod_pos_bound; lia]. tauto.
Qed.

Lemma toy_decrypt_add c1 c2 a b :
  toy_decrypt (mkPrivate n lam mu) c1 = Some a →
  toy_decrypt (mkPrivate n lam mu) c2 = Some b →
  - (n / 3 - 1) ≤ a + b ≤ n / 3 - 1 →
  toy_decrypt (mkPrivate n lam mu) (toy_add c1 c2) = Some (a + b).
Proof.
  intros (Hn1 & Hr1 & Hl1 & _)%toy_decrypt_Some
         (Hn2 & Hr2 & Hl2 & _)%toy_decrypt_Some Hab.
  destruct (ell_mul _ _ Hr1 Hr2) as [Hres Hell].
  unfold toy_decrypt, toy_add. cbn [priv_n priv_lambda priv_mu ct_n ct_value].
  rewrite Hn1, Z.eqb_refl, Hres, Hell, Hl1, Hl2. cbn [andb Z.eqb Pos.eqb].
  rewrite <- Z.add_mod by lia. by apply decode_encode.
Qed.

End Algebra.

Lemma units_checked_true : units_checked = true.
Proof. vm_compute. reflexivity. Qed.

Lemma toy_units r : powmod (obfuscator 323 r) 144 (323 * 323) = 1.
Proof.
  unfold obfuscator.
  destruct (Z.eqb_spec (Z.gcd (r mod 323) 323) 1) as [Hgcd|_];
    [|vm_compute; reflexivity].
  pose proof (Z.mod_pos_bound r 323 ltac:(lia)) as Hr.
  pose proof units_checked_true as Hall. unfold units_checked in Hall.
  rewrite forallb_forall in Hall.
  specialize (Hall (Z.to_nat (r mod 323))).
  rewrite Z2Nat.id in Hall by lia.
  assert (unit_checked (r mod 323) = true) as Hone.
  { apply Hall, in_seq. split; [apply Nat.le_0_l|].
    rewrite Nat.add_0_l. apply Z2Nat.inj_lt; lia. }
  unfold unit_checked in Hone. rewrite Hgcd in Hone.
  apply orb_prop in Hone as [Hone|Hone]; [discriminate Hone|].
  by apply Z.eqb_eq.
Qed.

#[export] Instance toy_laws : PaillierLaws toy.
Proof.
  split.
  - intros pk sk r m [-> ->] Hm.
    apply (toy_decrypt_encrypt 323 144 83);
      [lia | lia | reflexivity | exact toy_units | exact Hm].
  - intros pk sk c1 c2 a b [-> ->] H1 H2 Hab.
    apply (toy_decrypt_add 323 144 83); [lia | exact H1 | exact H2 | exact Hab].
Qed.

End ToyPaillierFacts.

(** ** The properties on the concrete boards *)

Module DemoFacts.
Import ToyPaillier ToyPaillierFacts Demo.

Lemma returns_Ok {A} `{EqDecision A} (a : A) (r : result A) w0 :
  returns a r = true → r = Ok a (world_of r w0).
Proof.
  destruct r as [a' w| |]; [|done..]. by intros ->%bool_decide_eq_true.
Qed.

Lemma ready_reachable : reachable (cfg := small) ready.
Proof.
  apply (reach_init (P := toy) (cfg := small) "Alice" toy_public toy_private 1 start).
  - by split.
  - vm_compute. discriminate.
  - apply returns_Ok. vm_compute. reflexivity.
Qed.

Lemma hit_once_reachable : reachable (cfg := small) hit_once.
Proof.
  apply (reach_process (P := toy) (cfg := small) 0 0 Hit ready);
    [apply ready_reachable|].
  apply returns_Ok. vm_compute. reflexivity.
Qed.

Lemma hit_and_miss_reachable : reachable (cfg := small) hit_and_miss.
Proof.
  apply (reach_process (P := toy) (cfg := small) 3 3 Miss hit_once);
    [apply hit_once_reachable|].
  apply returns_Ok. vm_compute. reflexivity.
Qed.

(** The scenario of the specification, turn by turn: outcome, remaining
    parts, and whether the board is defeated. *)
Example scenario :
  returns [(Hit, 1%Z, false); (AlreadyAttacked, 1%Z, false);
           (Miss, 1%Z, false); (Hit, 0%Z, true)]
    (run_turns (cfg := small) [(0, 0); (0, 0); (3, 3); (0, 1)] ready) = true.
Proof. vm_compute. reflexivity. Qed.

Example scenario_initial_health :
  returns 2%Z (check_health_homomorphically (cfg := small) ready) = true.
Proof. vm_compute. reflexivity. Qed.

(** The configured board: 16 ship parts on 10 x 10, found again by the
    homomorphic sum. *)
Example real_board :
  count_ones (plain_grid (self real_ready)) = 16 ∧
  returns 16%Z (check_health_homomorphically (cfg := game_config) real_ready)
    = true.
Proof. split; vm_compute; reflexivity. Qed.

(** Witness of C1: the cell (0, 0) after it was hit. *)
Lemma I1_invariant_witness :
  ∃ v ct,
    at2 (plain_grid (self hit_once)) 0 0 = Some v ∧
    at2 (encrypted_grid (self hit_once)) 0 0 = Some (Some ct) ∧
    decrypt (private_key (self hit_once)) ct = Some v.
Proof.
  apply (I1_invariant (cfg := small) hit_once 0 0 hit_once_reachable); cbn; lia.
Defined.

(** Witness of C2: the health check after a hit and a miss. *)
Lemma health_counts_ones_witness :
  check_health_homomorphically (cfg := small) hit_and_miss =
    Ok (Z.of_nat (count_ones (plain_grid (self hit_and_miss))))
       (after_health hit_and_miss).
Proof. exact (health_counts_ones hit_and_miss hit_and_miss_reachable). Defined.

(** Witness of C3: the first attack of the scenario. *)
Lemma hit_decrements_cell_witness :
  ∃ ct,
    at2 (encrypted_grid (self ready)) 0 0 = Some (Some ct) ∧
    receive_attack 0 0 ready = Ok true (after_hit ready 0 0 ct) ∧
    decrypt (private_key (self ready))
      (add ct (encrypt (public_key (self ready)) (entropy ready 0) (-1))) =
      Some 0%Z.
Proof.
  destruct (hit_decrements_cell (cfg := small) 0 0 ready ready_reachable)
    as (ct & He & Hrun & _ & _ & Hd & _).
  { vm_compute. reflexivity. }
  exists ct. split; [exact He|]. split; [exact Hrun | exact Hd].
Defined.

(** Witness of C4: (0, 0) is attacked, then (3, 3), then (0, 0) again. *)
Lemma repeated_attack_wasted_witness :
  process_attack 0 0 (world_of (run_attacks [(3, 3)] hit_once) hit_once) =
    Ok AlreadyAttacked (world_of (run_attacks [(3, 3)] hit_once) hit_once).
Proof.
  destruct (repeated_attack_wasted (P := toy) 0 0 ready Hit hit_once [(3, 3)] [Miss]
              (world_of (run_attacks [(3, 3)] hit_once) hit_once))
    as (_ & _ & Hagain).
  - apply returns_Ok. vm_compute. reflexivity.
  - apply returns_Ok. vm_compute. reflexivity.
  - exact Hagain.
Defined.

(** Witness of C5: the four attacks of the scenario on the two-part ship. *)
Lemma health_zero_after_all_hits_witness :
  ∃ os w' v,
    run_attacks [(0, 0); (0, 0); (3, 3); (0, 1)] ready = Ok os w' ∧
    check_health_homomorphically (cfg := small) w' = Ok v (after_health w') ∧
    hits os = size (struck (plain_grid (self ready))
                           [(0, 0); (0, 0); (3, 3); (0, 1)]) ∧
    v = Z.of_nat (2 - hits os) ∧
    (hits os = 2 → v = 0%Z) ∧
    (hits os < 2 → v ≠ 0%Z).
Proof.
  apply (health_zero_after_all_hits (cfg := small) ready 2
           [(0, 0); (0, 0); (3, 3); (0, 1)] ready_reachable).
  - vm_compute. reflexivity.
  - repeat (apply Forall_cons; split; [split; cbn; lia|]). apply Forall_nil.
    exact I.
Defined.

(** Witness of C6: placing the ship of the scenario. *)
Lemma placement_valid_witness :
  count_ones (plain_grid (self (world_of (place_ships (cfg := small) 1 start) start))) =
    sum_list (SHIP_SIZES (Config := small)).
Proof.
  destruct (placement_valid (P := toy) (cfg := small) "Alice" toy_public toy_private 1
              start (world_of (place_ships (cfg := small) 1 start) start))
    as (Hcount & _).
  - reflexivity.
  - apply returns_Ok. vm_compute. reflexivity.
  - exact Hcount.
Defined.

(** Counterexample to C7 as stated: a ship of 11 cells cannot lie on a
    board of side 10, since every run of 11 cells leaves the board; yet
    [__init__] does not fail: however many attempts are followed it is
    still inside the placement search. *)
Lemma misfit_never_fails :
  (∀ row col o,
     ¬ Forall (on_board (cfg := oversized)) (ship_cells row col 11 o)) ∧
  (∀ nm fuel w0,
     Player_init (P := toy) (cfg := oversized) nm toy_public toy_private fuel w0
       = Diverge).
Proof.
  split.
  - intros row col o Hall. rewrite Forall_forall in Hall. unfold ship_cells in Hall.
    destruct (Ascii.eqb o "H").
    + destruct (Hall (row, col + 10)) as [_ Hc]; [|cbn in Hc; lia].
      apply list_elem_of_fmap. exists (col + 10). split; [done|].
      apply elem_of_seq. lia.
    + destruct (Hall (row + 10, col)) as [Hr _]; [|cbn in Hr; lia].
      apply list_elem_of_fmap. exists (row + 10). split; [done|].
      apply elem_of_seq. lia.
  - intros nm fuel w0.
    apply (Player_init_too_long (P := toy) (cfg := oversized)
             nm toy_public toy_private fuel w0 11).
    + cbn. lia.
    + by split.
    + vm_compute. discriminate.
    + apply list_elem_of_here.
    + cbn. lia.
Qed.

(** Witness of C7 as amended: three ships of two cells on the board of
    side 2, each of which fits the side. *)
Lemma initialization_no_fit_check_witness :
  Player_init (cfg := crowded) "Alice" toy_public toy_private 3 start = Diverge.
Proof.
  destruct (initialization_no_fit_check (P := toy) (cfg := crowded)
              "Alice" toy_public toy_private 3 start) as (_ & Hsearch & _).
  - cbn. lia.
  - split; reflexivity.
  - vm_compute. discriminate.
  - apply Hsearch. vm_compute. reflexivity.
Defined.

(** Witness of C8: the first attack of the scenario. *)
Lemma fresh_attack_frame_witness :
  ∃ o w',
    process_attack 0 0 ready = Ok o w' ∧
    (o = Hit ∨ o = Miss) ∧
    guess_board (self w') =
      upd2 (guess_board (self ready)) 0 0
           (if decide (o = Hit) then "X" else "O")%char.
Proof.
  destruct (fresh_attack_frame (cfg := small) 0 0 ready ready_reachable)
    as (o & w' & Hrun & Ho & Hg & _).
  { vm_compute. reflexivity. }
  exists o, w'. split; [exact Hrun|]. split; [exact Ho | exact Hg].
Defined.

(** Witness of C9: [receive_attack] called twice on (0, 0). *)
Lemma receive_attack_unguarded_witness :
  ∃ w1 w2,
    receive_attack 0 0 ready = Ok true w1 ∧
    receive_attack 0 0 w1 = Ok false w2 ∧
    at2 (guess_board (self w1)) 0 0 = Some "X"%char ∧
    at2 (guess_board (self w2)) 0 0 = Some "O"%char ∧
    process_attack 0 0 w1 = Ok AlreadyAttacked w1.
Proof.
  destruct (receive_attack_unguarded (cfg := small) 0 0 ready ready_reachable)
    as (w1 & w2 & H1 & _ & Hx & H2 & Ho & _ & _ & Hguard).
  { vm_compute. reflexivity. }
  exists w1, w2. repeat split; assumption.
Defined.

(** Witness of C10: the health check of the freshly initialised board. *)
Lemma health_check_read_only_witness :
  self (world_of (check_health_homomorphically (cfg := small) ready) ready) =
    self ready.
Proof.
  destruct (health_check_read_only (P := toy) (cfg := small) ready 2%Z
              (world_of (check_health_homomorphically (cfg := small) ready) ready))
    as (Hself & _).
  - apply returns_Ok. vm_compute. reflexivity.
  - exact Hself.
Defined.

End DemoFacts.

(** ** The further properties on the concrete boards and matches *)

Module MatchDemoFacts.
Import ToyPaillier ToyPaillierFacts Demo DemoFacts MatchDemo.

Lemma is_ok_Ok {A} (r : result A) (d : A) w0 :
  is_ok r = true → r = Ok (value_of r d) (world_of r w0).
Proof. by destruct r. Qed.

Lemma is_MOk_MOk r d : is_MOk r = true → r = MOk (match_of r d).
Proof. by destruct r. Qed.

Lemma toy_capacity : (Z.of_nat (GRID_SIZE (Config := small) * GRID_SIZE (Config := small))
                      ≤ max_int toy_public)%Z.
Proof. vm_compute. discriminate. Qed.

Lemma ready_init :
  Player_init (cfg := small) "Alice" toy_public toy_private 1 start = Ok tt ready.
Proof. apply returns_Ok. vm_compute. reflexivity. Qed.

Lemma setup_in_match lines :
  is_MOk (setup lines) = true → in_match (cfg := small) (match_of (setup lines) no_match).
Proof.
  unfold setup. intros Hok.
  apply (match_setup (P := toy) (cfg := small) toy_public toy_private
           toy_public toy_private 1 (λ _, 0) (entropy start) lines).
  - by split.
  - by split.
  - apply toy_capacity.
  - apply toy_capacity.
  - apply is_MOk_MOk. exact Hok.
Qed.

Lemma m0_in_match : in_match (cfg := small) m0.
Proof. apply setup_in_match. vm_compute. reflexivity. Qed.

Lemma m0_turn : play_turn (cfg := small) 1 m0 = MOk m1.
Proof. apply is_MOk_MOk. vm_compute. reflexivity. Qed.

Lemma m1_in_match : in_match (cfg := small) m1.
Proof.
  apply (match_turn (P := toy) (cfg := small) 1 m0);
    [apply m0_in_match | vm_compute; reflexivity | apply m0_turn].
Qed.

Lemma m1_turn : play_turn (cfg := small) 1 m1 = MOk m2.
Proof. apply is_MOk_MOk. vm_compute. reflexivity. Qed.

Lemma m2_in_match : in_match (cfg := small) m2.
Proof.
  apply (match_turn (P := toy) (cfg := small) 1 m1);
    [apply m1_in_match | vm_compute; reflexivity | apply m1_turn].
Qed.

(** Witness of X1. *)
Lemma init_board_witness :
  check_health_homomorphically (cfg := small) ready =
    Ok (Z.of_nat (sum_list (SHIP_SIZES (Config := small)))) (after_health ready).
Proof.
  destruct (init_board (P := toy) (cfg := small) "Alice" toy_public toy_private 1 start ready)
    as (_ & _ & _ & _ & Hhealth).
  - by split.
  - apply toy_capacity.
  - apply ready_init.
  - exact Hhealth.
Defined.

(** Witness of X2: row 4 of the board of side 4. *)
Lemma attack_off_board_witness :
  receive_attack 4 0 ready = Raise IndexError ∧
  process_attack 4 0 ready = Raise IndexError.
Proof.
  apply (attack_off_board (P := toy) (cfg := small) 4 0 ready ready_reachable).
  cbn. lia.
Defined.

(** Witness of X3: a ship of two cells at (0, 2), clear of the first. *)
Lemma is_valid_placement_iff_witness :
  ∃ b,
    is_valid_placement (cfg := small) 0 2 2 "H" ready = Ok b ready ∧
    (b = true ↔
     Forall (λ rc, on_board (cfg := small) rc ∧
                   ∃ v, at2 (plain_grid (self ready)) rc.1 rc.2 = Some v ∧ v ≠ 1%Z)
            (ship_cells 0 2 2 "H")).
Proof.
  apply (is_valid_placement_iff (P := toy) (cfg := small) 0 2 2 "H" ready).
  - apply (cons_plain _ (reachable_consistent _ ready_reachable)).
  - cbn. lia.
  - cbn. lia.
Defined.

(** Witness of X4: the ship at (0, 0)-(0, 1), then a vertical one from
    (0, 1). *)
Lemma overlap_rejected_witness :
  is_valid_placement (cfg := small) 0 1 2 "V"
    (world_of (set_ship 0 0 2 "H" start) start) =
  Ok false (world_of (set_ship 0 0 2 "H" start) start).
Proof.
  apply (overlap_rejected (P := toy) (cfg := small) 0 0 2 "H" start
           (world_of (set_ship 0 0 2 "H" start) start) 0 1 2 "V").
  - apply (blank_shape (cfg := small) 0%Z).
  - reflexivity.
  - apply returns_Ok. vm_compute. reflexivity.
  - cbn. lia.
  - cbn. lia.
  - exists (0, 1). split; vm_compute; [apply list_elem_of_further|];
      apply list_elem_of_here.
Defined.

(** Witness of X5: the attacks of the scenario. *)
Lemma hits_on_display_witness :
  count_marks "X"
    (guess_board (self (world_of
       (run_attacks [(0, 0); (0, 0); (3, 3)] ready) ready))) =
  hits (value_of (run_attacks [(0, 0); (0, 0); (3, 3)] ready) []).
Proof.
  destruct (hits_on_display (P := toy) (cfg := small) "Alice" toy_public toy_private 1 start
              ready [(0, 0); (0, 0); (3, 3)]
              (value_of (run_attacks [(0, 0); (0, 0); (3, 3)] ready) [])
              (world_of (run_attacks [(0, 0); (0, 0); (3, 3)] ready) ready))
    as [Hx _].
  - by split.
  - apply toy_capacity.
  - apply ready_init.
  - apply is_ok_Ok. vm_compute. reflexivity.
  - exact Hx.
Defined.

(** Witness of X6: the attacks of the scenario. *)
Lemma guess_board_truthful_witness :
  truthful (plain_grid (self ready))
    (self (world_of (run_attacks [(0, 0); (0, 0); (3, 3)] ready) ready)).
Proof.
  apply (guess_board_truthful (P := toy) (cfg := small) "Alice" toy_public toy_private 1 start
           ready [(0, 0); (0, 0); (3, 3)]
           (value_of (run_attacks [(0, 0); (0, 0); (3, 3)] ready) [])).
  - by split.
  - apply toy_capacity.
  - apply ready_init.
  - apply is_ok_Ok. vm_compute. reflexivity.
Defined.


(** Witness of X8: [" c5  "] on the board of the program. *)
Lemma parse_announced_witness :
  parse_coordinates (cfg := game_config) " c5  " = Some (2, 4).
Proof.
  apply (parse_announced (cfg := game_config) 2 4 true " " "  ");
    cbn; (lia || reflexivity).
Defined.

(** Witness of X9: the display of the board after a hit and a miss. *)
Lemma print_board_view_public_witness :
  world_of (print_board_view (cfg := small) hit_and_miss) hit_and_miss
    = hit_and_miss.
Proof.
  destruct (print_board_view_public (P := toy) (cfg := small) hit_and_miss
              (value_of (print_board_view (cfg := small) hit_and_miss) [])
              (world_of (print_board_view (cfg := small) hit_and_miss) hit_and_miss)
              hit_and_miss) as [Hsame _].
  - apply is_ok_Ok. vm_compute. reflexivity.
  - exact Hsame.
Defined.


(** Witness of X11: Bob's first pick on the fresh board. *)
Lemma bob_guess_unmarked_witness :
  at2 (guess_board (self ready)) 0 0 = Some "."%char.
Proof.
  destruct (bob_guess_unmarked (P := toy) 1 ready 0 0
              (world_of (bob_guess 1 ready) ready)) as (_ & _ & Hdot & _).
  - apply returns_Ok. vm_compute. reflexivity.
  - exact Hdot.
Defined.

(** Witness of X12: the draw 7 on the board of side 4. *)
Lemma bob_guess_off_board_witness : bob_guess 1 ready7 = Raise IndexError.
Proof.
  apply (bob_guess_off_board (P := toy) (cfg := small) 0 ready7).
  - vm_compute. split; [reflexivity | repeat constructor].
  - left. vm_compute. lia.
Defined.

(** Witness of X13: after Alice's and Bob's first turns. *)
Lemma match_boards_consistent_witness :
  name (alice m2) = "Alice"%string ∧ name (bob m2) = "Bob"%string ∧
  consistent (cfg := small) (alice m2) ∧ consistent (cfg := small) (bob m2) ∧
  marks_sound (alice m2) ∧ marks_sound (bob m2).
Proof. exact (match_boards_consistent (P := toy) (cfg := small) m2 m2_in_match). Defined.


(** Witness of X15: after Alice's first turn. *)
Lemma game_over_iff_sunk_witness :
  game_over m1 = true ↔
  count_ones (plain_grid (if turn_count m1 `mod` 2 =? 0 then alice m1 else bob m1))
    = 0.
Proof.
  apply (game_over_iff_sunk (P := toy) (cfg := small) m1 m1_in_match).
  vm_compute. lia.
Defined.

(** Witness of X16: Bob's first turn. *)
Lemma bob_turn_marks_new_cell_witness :
  ∃ row col,
    at2 (guess_board (alice m1)) row col = Some "."%char ∧
    marked (alice m2) row col.
Proof.
  destruct (bob_turn_marks_new_cell (P := toy) (cfg := small) 1 m1 m2 m1_in_match)
    as (row & col & _ & _ & Hdot & Hmark & _).
  - vm_compute. reflexivity.
  - apply m1_turn.
  - exists row, col. split; [exact Hdot | exact Hmark].
Defined.

(** Witness of X17: Alice enters "zz", then "a1" a second time. *)
Lemma alice_wasted_turn_witness :
  ∃ s',
    play_turn (cfg := small) 1 m2 = MOk s' ∧
    alice s' = alice m2 ∧ bob s' = bob m2 ∧
    turn_count s' = 3 ∧ stdin s' = ["A2"]%string.
Proof.
  destruct (alice_wasted_turn (P := toy) (cfg := small) 1 m2 0 0 ["A2"]%string m2_in_match)
    as (s' & Hrun & Ha & Hb & Hcount & Hin & _).
  - vm_compute. repeat constructor.
  - vm_compute. lia.
  - vm_compute. reflexivity.
  - exists "X"%char. split; [vm_compute; reflexivity | discriminate].
  - exists s'. split; [exact Hrun|]. split; [exact Ha|]. split; [exact Hb|].
    split; [exact Hcount | exact Hin].
Defined.

(** Witness of X18: the input holds "zz" and an empty line. *)
Lemma alice_out_of_input_witness : play_turn (cfg := small) 1 e0 = MEOFError.
Proof.
  apply (alice_out_of_input (P := toy) (cfg := small) 1 e0).
  - apply setup_in_match. vm_compute. reflexivity.
  - vm_compute. repeat constructor.
  - vm_compute. lia.
  - vm_compute. repeat constructor.
Defined.

(** Witness of X19: the match that Alice wins on the third turn. *)
Lemma play_ends_game_over_witness :
  in_match (cfg := small) g3 ∧ game_over g3 = true.
Proof.
  apply (play_ends_game_over (P := toy) (cfg := small) 3 1 g0 g3).
  - apply setup_in_match. vm_compute. reflexivity.
  - apply is_MOk_MOk. vm_compute. reflexivity.
Defined.

End MatchDemoFacts.
